(** * ESP32 UWB event firmware: a shallow embedding and its properties

    The development follows the Arduino sketches of the repository:

    - the event-reporting TAG and ANCHOR sketches (interrupt handlers feed a
      ring buffer, [loop] drains it to UDP, [newRange] reports a RANGE
      record and, optionally, the distance);
    - the distance-only TAG sketch ([newRange] sends ["Range: <d> m"]);
    - the AES-GCM TAG sketch ([generateRandomIV], [aesGcmEncrypt] /
      [aesGcmDecrypt], and [newRange], which frames the encrypted line);

    and, for the host side, the Pairer of the correlation engine as its
    specification describes it.

    C integers are modelled as [Z] with the wrap-around written out, [char]
    as [ascii], C strings as [string], [float] as an IEEE 754 value
    ([spec_float]), the static array [q] as a list that is updated by
    index, a pointer that may be null as an [option]. The sketch code runs
    in a small monad that carries the globals, collects the calls that
    leave the board and stops at a fault. The first half of the file holds
    the definitions, the second half the lemmas. *)

From Stdlib Require Import ZArith Lia Bool Ascii String List.
From Stdlib Require Import Floats.SpecFloat QArith Lqa.
From stdpp Require Import base list.

Local Open Scope Z_scope.

(** Splits a goal into its conjuncts, and no further. *)
Ltac conjs := repeat match goal with |- _ /\ _ => split end.

(* ===================================================================== *)
(** * The interrupt-to-loop ring buffer *)
(* ===================================================================== *)

Module Ring.

(** [struct EventRec { char kind; unsigned long long dev_ts; }] *)
Record EventRec : Type := mkEventRec { kind : ascii; dev_ts : Z }.

#[global] Instance EventRec_inhabited : Inhabited EventRec :=
  populate (mkEventRec zero 0).

(** Number of slots of [static volatile EventRec q[64]]. *)
Definition QSIZE : Z := 64.

(** The cast [(uint8_t) e]. *)
Definition uint8 (z : Z) : Z := z mod 256.

(** The three globals [q], [q_head], [q_tail]. *)
Record queue : Type := mkQueue {
  q      : list EventRec;
  q_head : Z;
  q_tail : Z
}.

(** Statics are zero-initialised; [q_head = 0, q_tail = 0]. *)
Definition q_init : queue :=
  mkQueue (replicate 64 (mkEventRec zero 0)) 0 0.

(** [q[i].kind = k] *)
Definition set_kind (i : Z) (k : ascii) (a : list EventRec) : list EventRec :=
  <[Z.to_nat i := mkEventRec k (dev_ts (a !!! Z.to_nat i))]> a.

(** [q[i].dev_ts = ts] *)
Definition set_dev_ts (i : Z) (ts : Z) (a : list EventRec) : list EventRec :=
  <[Z.to_nat i := mkEventRec (kind (a !!! Z.to_nat i)) ts]> a.

(** [[
  static inline void isr_push(char k, unsigned long long ts) {
    uint8_t nx = (uint8_t)((q_head + 1) & 63);
    if (nx == q_tail) return;
    q[q_head].kind = k;
    q[q_head].dev_ts = ts;
    q_head = nx;
  }
]] *)
Definition isr_push (k : ascii) (ts : Z) (s : queue) : queue :=
  let nx := uint8 (Z.land (q_head s + 1) 63) in
  if nx =? q_tail s then s
  else
    let a1 := set_kind (q_head s) k (q s) in
    let a2 := set_dev_ts (q_head s) ts a1 in
    mkQueue a2 nx (q_tail s).

(** [[
  static bool pop(EventRec &out) {
    if (q_tail == q_head) return false;
    out.kind = q[q_tail].kind;
    out.dev_ts = q[q_tail].dev_ts;
    q_tail = (uint8_t)((q_tail + 1) & 63);
    return true;
  }
]]
    The reference parameter [out] is threaded through: it is left as it
    was when [pop] returns [false]. *)
Definition pop (out : EventRec) (s : queue) : bool * EventRec * queue :=
  if q_tail s =? q_head s then (false, out, s)
  else
    let out1 := mkEventRec (kind (q s !!! Z.to_nat (q_tail s))) (dev_ts out) in
    let out2 := mkEventRec (kind out1) (dev_ts (q s !!! Z.to_nat (q_tail s))) in
    (true, out2,
     mkQueue (q s) (q_head s) (uint8 (Z.land (q_tail s + 1) 63))).

(** ** Derived notions *)

(** Events written by the producer and not yet read by the consumer. *)
Definition pending (s : queue) : Z := (q_head s - q_tail s) mod QSIZE.

(** The slots between [q_tail] (inclusive) and [q_head] (exclusive), in
    the order the consumer will read them. *)
Definition contents (s : queue) : list EventRec :=
  map (fun i : nat => q s !!! Z.to_nat ((q_tail s + Z.of_nat i) mod QSIZE))
      (seq 0 (Z.to_nat (pending s))).

(** The test [nx == q_tail] of [isr_push]. *)
Definition full (s : queue) : bool :=
  uint8 (Z.land (q_head s + 1) 63) =? q_tail s.

(** Shape of every state the two functions can produce. *)
Definition wf (s : queue) : Prop :=
  length (q s) = 64%nat /\ 0 <= q_head s < 64 /\ 0 <= q_tail s < 64.

(** One call of either function. *)
Inductive op : Type :=
| Push (k : ascii) (ts : Z)
| Pop.

(** What the caller sees of a call: nothing for [isr_push] (it is [void]),
    the flag and the record for [pop]. *)
Inductive obs : Type :=
| PushDone (stored : bool)
| PopFalse
| PopTrue (r : EventRec).

(** [isr_push] is [void]; the flag of [PushDone] is a ghost that records
    which branch ran ([false]: the early [return]). *)
Definition step (o : op) (s : queue) : obs * queue :=
  match o with
  | Push k ts => (PushDone (negb (full s)), isr_push k ts s)
  | Pop =>
      match pop inhabitant s with
      | (true, r, s') => (PopTrue r, s')
      | (false, _, s') => (PopFalse, s')
      end
  end.

Fixpoint run (ops : list op) (s : queue) : list obs * queue :=
  match ops with
  | [] => ([], s)
  | o :: ops' =>
      let '(x, s1) := step o s in
      let '(xs, s2) := run ops' s1 in
      (x :: xs, s2)
  end.

(** Events accepted minus events handed out, counted on a history. *)
Definition delta (x : obs) : Z :=
  match x with
  | PushDone true => 1
  | PopTrue _ => -1
  | _ => 0
  end.

Definition balance (xs : list obs) : Z :=
  fold_right (fun x n => delta x + n) 0 xs.

(** The records the producer stored, in call order. *)
Fixpoint accepted (ops : list op) (xs : list obs) : list EventRec :=
  match ops, xs with
  | Push k ts :: ops', PushDone true :: xs' =>
      mkEventRec k ts :: accepted ops' xs'
  | _ :: ops', _ :: xs' => accepted ops' xs'
  | _, _ => []
  end.

(** The records the consumer received, in call order. *)
Fixpoint popped (xs : list obs) : list EventRec :=
  match xs with
  | [] => []
  | PopTrue r :: xs' => r :: popped xs'
  | _ :: xs' => popped xs'
  end.

Definition is_nil {A : Type} (l : list A) : bool :=
  match l with [] => true | _ :: _ => false end.

(** [n] calls [isr_push('T', i)] for [i = from, from+1, ...]. *)
Definition pushes (from : Z) (n : nat) : list op :=
  map (fun i : nat => Push "T"%char (from + Z.of_nat i)) (seq 0 n).

End Ring.

(** ** The bounded FIFO queue the ring buffer is compared with

    A queue of at most [capacity] records: [fifo_push] appends at the back
    and refuses when the bound is reached, [fifo_pop] takes from the
    front. *)
Module Fifo.
Import Ring.

Definition capacity : nat := 63.

Definition fifo_push (r : EventRec) (l : list EventRec) : obs * list EventRec :=
  if (length l <? capacity)%nat then (PushDone true, l ++ [r])
  else (PushDone false, l).

Definition fifo_pop (l : list EventRec) : obs * list EventRec :=
  match l with
  | [] => (PopFalse, [])
  | r :: l' => (PopTrue r, l')
  end.

Definition fifo_step (o : op) (l : list EventRec) : obs * list EventRec :=
  match o with
  | Push k ts => fifo_push (mkEventRec k ts) l
  | Pop => fifo_pop l
  end.

Fixpoint fifo_run (ops : list op) (l : list EventRec) : list obs * list EventRec :=
  match ops with
  | [] => ([], l)
  | o :: ops' =>
      let '(x, l1) := fifo_step o l in
      let '(xs, l2) := fifo_run ops' l1 in
      (x :: xs, l2)
  end.

End Fifo.

(** ** The consumer preempted by the interrupt handlers

    [pop] runs in [loop()] and can be interrupted between any two of its
    statements; [isr_push] runs in the handlers, to completion. The
    consumer is cut at its statements: the test, the two reads of
    [q[q_tail]], and the store to [q_tail]. *)
Module Preempt.
Import Ring.

(** Where the consumer is inside [pop], with the value of [out] so far. *)
Inductive pc : Type :=
| Idle
| Tested (out : EventRec)     (* [q_tail != q_head] was seen *)
| GotKind (out : EventRec)    (* [out.kind] is assigned *)
| GotTs (out : EventRec).     (* [out.dev_ts] is assigned *)

Record mstate : Type := mkM { mq : queue; mpc : pc }.

(** [Main out0]: the consumer runs its next statement; when it is idle it
    enters [pop(out0)]. *)
Inductive mevent : Type :=
| Isr (k : ascii) (ts : Z)
| Main (out0 : EventRec).

(** One statement. The first component tells which call, if any, takes
    effect at this statement, the second what that call returns. *)
Definition mstep (e : mevent) (s : mstate) : option op * option obs * mstate :=
  match e with
  | Isr k ts =>
      (Some (Push k ts), Some (PushDone (negb (full (mq s)))),
       mkM (isr_push k ts (mq s)) (mpc s))
  | Main out0 =>
      match mpc s with
      | Idle =>
          if q_tail (mq s) =? q_head (mq s)
          then (Some Pop, Some PopFalse, s)
          else (None, None, mkM (mq s) (Tested out0))
      | Tested out =>
          (None, None,
           mkM (mq s)
             (GotKind (mkEventRec (kind (q (mq s) !!! Z.to_nat (q_tail (mq s))))
                                  (dev_ts out))))
      | GotKind out =>
          (None, None,
           mkM (mq s)
             (GotTs (mkEventRec (kind out)
                       (dev_ts (q (mq s) !!! Z.to_nat (q_tail (mq s)))))))
      | GotTs out =>
          (Some Pop, Some (PopTrue out),
           mkM (mkQueue (q (mq s)) (q_head (mq s))
                        (uint8 (Z.land (q_tail (mq s) + 1) 63)))
               Idle)
      end
  end.

Definition opt_cons {A : Type} (o : option A) (l : list A) : list A :=
  match o with Some a => a :: l | None => l end.

Fixpoint mrun (sched : list mevent) (s : mstate)
  : list op * list obs * mstate :=
  match sched with
  | [] => ([], [], s)
  | e :: sched' =>
      let '(o, x, s1) := mstep e s in
      let '(os, xs, s2) := mrun sched' s1 in
      (opt_cons o os, opt_cons x xs, s2)
  end.

(** What the consumer has seen of the slot it is reading. *)
Definition reading (s : mstate) : Prop :=
  match mpc s with
  | Idle => True
  | Tested _ => q_tail (mq s) <> q_head (mq s)
  | GotKind out =>
      q_tail (mq s) <> q_head (mq s) /\
      kind out = kind (q (mq s) !!! Z.to_nat (q_tail (mq s)))
  | GotTs out =>
      q_tail (mq s) <> q_head (mq s) /\
      out = q (mq s) !!! Z.to_nat (q_tail (mq s))
  end.

End Preempt.

(* ===================================================================== *)
(** * The C library calls the sketches make: [snprintf], [strlen] *)
(* ===================================================================== *)

Module Fmt.
Local Open Scope string_scope.

(** The characters ['\n'] and ['\t'] of the C string literals. *)
Definition nl : string := String (ascii_of_nat 10) EmptyString.
Definition tab : string := String (ascii_of_nat 9) EmptyString.

(** ** Unsigned decimal conversion ([%lu], [%llu]) *)

Definition digit (d : Z) : ascii := ascii_of_nat (Z.to_nat (48 + d)).

(** Digits are produced from the least significant one and pushed in
    front of [acc]; a number [n >= 1] has at most [log2 n + 1] of them. *)
Fixpoint utoa_loop (fuel : nat) (n : Z) (acc : string) : string :=
  match fuel with
  | O => acc
  | S fuel' =>
      let acc' := String (digit (n mod 10)) acc in
      if (n / 10 =? 0)%Z then acc' else utoa_loop fuel' (n / 10) acc'
  end.

Definition utoa (n : Z) : string :=
  utoa_loop (S (Z.to_nat (Z.log2 n))) n "".

(** Reading a decimal numeral back. *)
Definition digit_val (c : ascii) : Z := Z.of_nat (nat_of_ascii c) - 48.

Fixpoint atou_loop (s : string) (acc : Z) : Z :=
  match s with
  | EmptyString => acc
  | String c s' => atou_loop s' (10 * acc + digit_val c)
  end.

Definition atou (s : string) : Z := atou_loop s 0.

Definition is_digit (c : ascii) : bool :=
  ((48 <=? Z.of_nat (nat_of_ascii c)) && (Z.of_nat (nat_of_ascii c) <=? 57))%Z.

Fixpoint all_chars (p : ascii -> bool) (s : string) : bool :=
  match s with
  | EmptyString => true
  | String c s' => p c && all_chars p s'
  end.

(** A line of the wire protocol: ASCII characters, no ['\n'] before the
    final one, and no terminator inside. *)
Definition line_char (c : ascii) : bool :=
  negb (Ascii.eqb c (ascii_of_nat 10)) && negb (Ascii.eqb c zero) &&
  (nat_of_ascii c <? 128)%nat.

Fixpoint is_line (s : string) : bool :=
  match s with
  | EmptyString => false
  | String c EmptyString => Ascii.eqb c (ascii_of_nat 10)
  | String c s' => line_char c && is_line s'
  end.

(** ** Fixed-point conversion of a floating-point value ([%.2f])

    The argument is the exact value [(-1)^s * m * 2^e]; the output is that
    value rounded to the nearest multiple of 1/100, ties to even. *)
Definition round_scaled (n e : Z) : Z :=
  (if 0 <=? e then n * 2 ^ e
   else
     let d := 2 ^ (- e) in
     let q := n / d in
     let r := n mod d in
     if 2 * r <? d then q
     else if d <? 2 * r then q + 1
     else if Z.even q then q else q + 1)%Z.

Definition sign_str (s : bool) : string := if s then "-" else "".

Definition fixed2 (h : Z) : string :=
  utoa (h / 100) ++ "." ++
  String (digit (h / 10 mod 10)) (String (digit (h mod 10)) "").

Definition ftoa2 (f : spec_float) : string :=
  match f with
  | S754_nan => "nan"
  | S754_infinity s => sign_str s ++ "inf"
  | S754_zero s => sign_str s ++ "0.00"
  | S754_finite s m e => sign_str s ++ fixed2 (round_scaled (Z.pos m * 100) e)
  end.

(** A C [float]: IEEE 754 binary32. *)
Definition is_float32 (f : spec_float) : bool := valid_binary 24 128 f.

(** ** [printf]-style expansion, for the directives the sketches use *)

Inductive arg : Type :=
| ArgS (s : string)        (* const char*          for %s         *)
| ArgU (n : Z)             (* unsigned (long) long for %lu, %llu  *)
| ArgF (f : spec_float).   (* double               for %.2f       *)

Fixpoint sprintf (fmt : string) (args : list arg) {struct fmt}
  : option string :=
  match fmt with
  | EmptyString => Some EmptyString
  | String c rest =>
      if Ascii.eqb c "%" then
        match rest, args with
        | String "s" r1, ArgS s :: args' =>
            option_map (append s) (sprintf r1 args')
        | String "l" (String "u" r1), ArgU n :: args' =>
            option_map (append (utoa n)) (sprintf r1 args')
        | String "l" (String "l" (String "u" r1)), ArgU n :: args' =>
            option_map (append (utoa n)) (sprintf r1 args')
        | String "." (String "2" (String "f" r1)), ArgF f :: args' =>
            option_map (append (ftoa2 f)) (sprintf r1 args')
        | _, _ => None
        end
      else option_map (String c) (sprintf rest args)
  end.

(** [snprintf(buf, size, fmt, ...)]: [buf] receives at most [size - 1]
    characters and the terminator; the value returned is the length of the
    whole expansion. *)
Definition snprintf (size : nat) (fmt : string) (args : list arg)
  : option (string * Z) :=
  match sprintf fmt args with
  | Some s => Some (substring 0 (size - 1)%nat s, Z.of_nat (String.length s))
  | None => None
  end.

(** [strlen(buf)] *)
Definition strlen (buf : string) : Z := Z.of_nat (String.length buf).

(** The [n] bytes at [buf] that [write(buf, n)] sends. What lies behind the
    terminator is not specified. *)
Definition read_bytes (buf : string) (n : Z) : option string :=
  if ((0 <=? n) && (n <=? strlen buf))%Z
  then Some (substring 0 (Z.to_nat n) buf)
  else None.

End Fmt.

(* ===================================================================== *)
(** * The sketches *)
(* ===================================================================== *)

Module Firmware.
Import Ring Fmt.
Local Open Scope string_scope.

(** What [DW1000Ranging.getDistantDevice()] points to, as far as the
    sketches read it. *)
Record DW1000Device : Type := mkDevice {
  getShortAddress : Z;
  getRange : spec_float;
  getRXPower : spec_float
}.

Inductive socket : Type := UWB_UDP | UWB_EVT.

(** Calls that leave the board. [UdpPacket s ip port p] stands for
    [s.beginPacket(ip, port); s.write(p, |p|); s.endPacket();]. *)
Inductive output : Type :=
| UdpPacket (s : socket) (ip : Z * Z * Z * Z) (port : Z) (payload : string)
| SerialPrint (s : string)
| SerialPrintHex (n : Z)
| SerialPrintFloat (f : spec_float) (digits : Z)
| SerialPrintln (s : string).

Definition HOST_IP : Z * Z * Z * Z := (172, 20, 10, 3)%Z.
Definition EVT_PORT : Z := 9100.
Definition HOST_PORT : Z := 9000.
Definition HEARTBEAT_MS : Z := 2000.

(** The casts to [unsigned long] (32 bits on the ESP32) and to
    [unsigned long long]. *)
Definition ulong (z : Z) : Z := (z mod 2 ^ 32)%Z.
Definition ulonglong (z : Z) : Z := (z mod 2 ^ 64)%Z.

(** The two event-reporting sketches are the same text up to the role
    written in the format strings, [ENABLE_UDP_RANGE], and the name of the
    callback for a new peer. *)
Inductive board : Type := TAG | ANCHOR.

Record sketch : Type := mkSketch {
  fmt_event : string;
  fmt_heartbeat : string;
  fmt_range : string;
  ENABLE_UDP_RANGE : bool
}.

Definition tag_sketch : sketch :=
  {| fmt_event := "role=TAG evt=%s dev_ts=%llu" ++ nl;
     fmt_heartbeat := "role=TAG evt=HEARTBEAT host_ts=%lu" ++ nl;
     fmt_range := "role=TAG evt=RANGE host_ts=%lu" ++ nl;
     ENABLE_UDP_RANGE := true |}.

Definition anchor_sketch : sketch :=
  {| fmt_event := "role=ANCHOR evt=%s dev_ts=%llu" ++ nl;
     fmt_heartbeat := "role=ANCHOR evt=HEARTBEAT host_ts=%lu" ++ nl;
     fmt_range := "role=ANCHOR evt=RANGE host_ts=%lu" ++ nl;
     ENABLE_UDP_RANGE := false |}.

Definition sketch_of (b : board) : sketch :=
  match b with TAG => tag_sketch | ANCHOR => anchor_sketch end.

Definition role (b : board) : string :=
  match b with TAG => "TAG" | ANCHOR => "ANCHOR" end.

(** ** Globals, faults, and the monad the sketch code runs in *)

Record globals : Type := mkGlobals {
  gq : queue;          (* q, q_head, q_tail *)
  last_hb : Z          (* unsigned long last_hb *)
}.

Definition boot : globals := mkGlobals q_init 0.

Inductive fault : Type :=
| NullDereference        (* [dev->...] with [dev == NULL] *)
| ReadPastTerminator     (* [write(buf, n)] with [n > strlen(buf)] *)
| BadFormat              (* directive and argument do not match *)
| OutOfFuel.             (* the bound given to a loop was too small *)

Inductive outcome (A : Type) : Type :=
| Ok (a : A) (g : globals) (out : list output)
| Fault (f : fault).
Arguments Ok {A} a g out.
Arguments Fault {A} f.

Definition M (A : Type) : Type := globals -> outcome A.

Definition ret {A : Type} (a : A) : M A := fun g => Ok a g [].

(** Output produced so far goes in front of what follows. *)
Definition prepend {B : Type} (o1 : list output) (r : outcome B) : outcome B :=
  match r with
  | Fault f => Fault f
  | Ok b g2 o2 => Ok b g2 (o1 ++ o2)%list
  end.

Definition bind {A B : Type} (m : M A) (k : A -> M B) : M B :=
  fun g =>
    match m g with
    | Fault f => Fault f
    | Ok a g1 o1 => prepend o1 (k a g1)
    end.

Notation "x <- m ;; k" := (bind m (fun x => k))
  (at level 100, m at next level, right associativity).
Notation "m ;;; k" := (bind m (fun _ => k))
  (at level 100, right associativity).

Definition fail {A : Type} (f : fault) : M A := fun _ => Fault f.
Definition emit (o : output) : M unit := fun g => Ok tt g [o].
Definition get_last_hb : M Z := fun g => Ok (last_hb g) g [].
Definition set_last_hb (v : Z) : M unit :=
  fun g => Ok tt (mkGlobals (gq g) v) [].

Definition call_isr_push (k : ascii) (ts : Z) : M unit :=
  fun g => Ok tt (mkGlobals (isr_push k ts (gq g)) (last_hb g)) [].

Definition call_pop (out : EventRec) : M (bool * EventRec) :=
  fun g =>
    let '(b, r, q') := pop out (gq g) in
    Ok (b, r) (mkGlobals q' (last_hb g)) [].

(** [dev->f()] *)
Definition deref {A : Type} (dev : option DW1000Device)
    (f : DW1000Device -> A) : M A :=
  match dev with
  | Some d => ret (f d)
  | None => fail NullDereference
  end.

Definition c_snprintf (size : nat) (fmt : string) (args : list arg)
  : M (string * Z) :=
  match snprintf size fmt args with
  | Some r => ret r
  | None => fail BadFormat
  end.

(** [s.beginPacket(HOST_IP, port); s.write((const uint8_t* )buf, n);
     s.endPacket();] *)
Definition udp_send (s : socket) (port : Z) (buf : string) (n : Z) : M unit :=
  match read_bytes buf n with
  | Some p => emit (UdpPacket s HOST_IP port p)
  | None => fail ReadPastTerminator
  end.

(** ** Interrupt handlers

    [t] is what [DW1000Time::getTimestamp()] returned.
    [[
  static inline unsigned long long get_tx_ts(){
    DW1000Time t; DW1000.getTransmitTimestamp(t);
    return (unsigned long long)t.getTimestamp();
  }
  void IRAM_ATTR on_tx_done(){
    DW1000Ranging.appHandleSent();
    isr_push('T', get_tx_ts());
  }
]] *)
Definition get_tx_ts (t : Z) : Z := ulonglong t.
Definition get_rx_ts (t : Z) : Z := ulonglong t.

Definition on_tx_done (t : Z) : M unit := call_isr_push "T" (get_tx_ts t).
Definition on_rx_done (t : Z) : M unit := call_isr_push "R" (get_rx_ts t).

(** ** [loop()]
    [[
  EventRec r;
  while (pop(r)) {
    char buf[128];
    int n = snprintf(buf, sizeof(buf),
                     "role=TAG evt=%s dev_ts=%llu\n",
                     (r.kind=='T' ? "TX" : "RX"),
                     r.dev_ts);
    UWB_EVT.beginPacket(HOST_IP, EVT_PORT);
    UWB_EVT.write((const uint8_t* )buf, n);
    UWB_EVT.endPacket();
  }
]]
    [drain_iter] is one evaluation of the loop condition, with the body
    when it holds. *)
Definition drain_iter (sk : sketch) (r : EventRec) : M (bool * EventRec) :=
  br <- call_pop r ;;
  if br.1 then
    bn <- c_snprintf 128 (fmt_event sk)
            [ArgS (if Ascii.eqb (kind br.2) "T" then "TX" else "RX");
             ArgU (dev_ts br.2)] ;;
    udp_send UWB_EVT EVT_PORT bn.1 bn.2 ;;;
    ret br
  else ret br.

Fixpoint drain (sk : sketch) (fuel : nat) (r : EventRec) : M unit :=
  match fuel with
  | O => fail OutOfFuel
  | S fuel' =>
      br <- drain_iter sk r ;;
      if br.1 then drain sk fuel' br.2 else ret tt
  end.

(** [[
  unsigned long now = millis();
  if (now - last_hb >= HEARTBEAT_MS) {
    last_hb = now;
    char hb[64];
    snprintf(hb, sizeof(hb), "role=TAG evt=HEARTBEAT host_ts=%lu\n", now/1000);
    UWB_EVT.beginPacket(HOST_IP, EVT_PORT);
    UWB_EVT.write((const uint8_t* )hb, strlen(hb));
    UWB_EVT.endPacket();
  }
]] *)
Definition heartbeat (sk : sketch) (millis : Z) : M unit :=
  let now := ulong millis in
  last <- get_last_hb ;;
  if (HEARTBEAT_MS <=? ulong (now - last))%Z then
    set_last_hb now ;;;
    hb <- c_snprintf 64 (fmt_heartbeat sk) [ArgU (now / 1000)%Z] ;;
    udp_send UWB_EVT EVT_PORT hb.1 (strlen hb.1)
  else ret tt.

(** [DW1000Ranging.loop()] runs the library; it reaches the sketch only
    through the callbacks below. *)
Definition loop (sk : sketch) (fuel : nat) (millis : Z) : M unit :=
  drain sk fuel inhabitant ;;;
  heartbeat sk millis.

(** ** [newRange()] of the event-reporting sketches
    [[
  DW1000Device* dev = DW1000Ranging.getDistantDevice();
  if (!dev) return;
  float m = dev->getRange();
  float rssi = dev->getRXPower();
  Serial.print("from: "); Serial.print(dev->getShortAddress(), HEX);
  Serial.print("\t Range: "); Serial.print(m, 2);
  Serial.print(" m\t RX power: "); Serial.print(rssi, 2); Serial.println(" dBm");
  char e[96];
  unsigned long sec = millis() / 1000;
  snprintf(e, sizeof(e), "role=TAG evt=RANGE host_ts=%lu\n", sec);
  UWB_EVT.beginPacket(HOST_IP, EVT_PORT);
  UWB_EVT.write((const uint8_t* )e, strlen(e));
  UWB_EVT.endPacket();
#if ENABLE_UDP_RANGE
  char msg[64];
  snprintf(msg, sizeof(msg), "Range: %.2f m\n", m);
  UWB_UDP.beginPacket(HOST_IP, HOST_PORT);
  UWB_UDP.write((const uint8_t* )msg, strlen(msg));
  UWB_UDP.endPacket();
#endif
]] *)
Definition is_null (dev : option DW1000Device) : bool :=
  match dev with None => true | Some _ => false end.

Definition newRange (sk : sketch) (dev : option DW1000Device) (millis : Z)
  : M unit :=
  if is_null dev then ret tt
  else
    m <- deref dev getRange ;;
    rssi <- deref dev getRXPower ;;
    emit (SerialPrint "from: ") ;;;
    a <- deref dev getShortAddress ;;
    emit (SerialPrintHex a) ;;;
    emit (SerialPrint (tab ++ " Range: ")) ;;;
    emit (SerialPrintFloat m 2) ;;;
    emit (SerialPrint (" m" ++ tab ++ " RX power: ")) ;;;
    emit (SerialPrintFloat rssi 2) ;;;
    emit (SerialPrintln " dBm") ;;;
    let sec := (ulong millis / 1000)%Z in
    e <- c_snprintf 96 (fmt_range sk) [ArgU sec] ;;
    udp_send UWB_EVT EVT_PORT e.1 (strlen e.1) ;;;
    if ENABLE_UDP_RANGE sk then
      msg <- c_snprintf 64 ("Range: %.2f m" ++ nl) [ArgF m] ;;
      udp_send UWB_UDP HOST_PORT msg.1 (strlen msg.1)
    else ret tt.

(** ** [newRange()] of the distance-only TAG sketch
    [[
  DW1000Device* dev = DW1000Ranging.getDistantDevice();
  if (!dev) return;
  float range_m = dev->getRange();
  float rx_dbm  = dev->getRXPower();
  Serial.print(F("from: "));
  Serial.print(dev->getShortAddress(), HEX);
  Serial.print(F("\t Range: "));
  Serial.print(range_m, 2);
  Serial.print(F(" m\t RX power: "));
  Serial.print(rx_dbm, 2);
  Serial.println(F(" dBm"));
  char msg[64];
  int n = snprintf(msg, sizeof(msg), "Range: %.2f m\n", range_m);
  UWB_UDP.beginPacket(HOST_IP, HOST_PORT);
  UWB_UDP.write((const uint8_t* )msg, (size_t)n);
  UWB_UDP.endPacket();
]] *)
Definition newRange_plot (dev : option DW1000Device) : M unit :=
  if is_null dev then ret tt
  else
    range_m <- deref dev getRange ;;
    rx_dbm <- deref dev getRXPower ;;
    emit (SerialPrint "from: ") ;;;
    a <- deref dev getShortAddress ;;
    emit (SerialPrintHex a) ;;;
    emit (SerialPrint (tab ++ " Range: ")) ;;;
    emit (SerialPrintFloat range_m 2) ;;;
    emit (SerialPrint (" m" ++ tab ++ " RX power: ")) ;;;
    emit (SerialPrintFloat rx_dbm 2) ;;;
    emit (SerialPrintln " dBm") ;;;
    msg <- c_snprintf 64 ("Range: %.2f m" ++ nl) [ArgF range_m] ;;
    udp_send UWB_UDP HOST_PORT msg.1 msg.2.

(** ** [newRange()] of the serial-only sketches, for comparison: the
    pointer is used as it comes.
    [[
  Serial.print("from: ");
  Serial.print(DW1000Ranging.getDistantDevice()->getShortAddress(), HEX);
  Serial.print("\t Range: ");
  Serial.print(DW1000Ranging.getDistantDevice()->getRange());
  Serial.print(" m");
  Serial.print("\t RX power: ");
  Serial.print(DW1000Ranging.getDistantDevice()->getRXPower());
  Serial.println(" dBm");
]] *)
Definition newRange_serial (dev : option DW1000Device) : M unit :=
  emit (SerialPrint "from: ") ;;;
  a <- deref dev getShortAddress ;;
  emit (SerialPrintHex a) ;;;
  emit (SerialPrint (tab ++ " Range: ")) ;;;
  m <- deref dev getRange ;;
  emit (SerialPrintFloat m 2) ;;;
  emit (SerialPrint " m") ;;;
  emit (SerialPrint (tab ++ " RX power: ")) ;;;
  p <- deref dev getRXPower ;;
  emit (SerialPrintFloat p 2) ;;;
  emit (SerialPrintln " dBm").

(** ** The board as a machine: what can happen, in any order *)

Inductive event : Type :=
| IrqSent (t : Z)                                   (* on_tx_done *)
| IrqReceived (t : Z)                               (* on_rx_done *)
| DrainIter                                         (* while (pop(r)) {...} *)
| HeartbeatCheck (millis : Z)                       (* end of loop() *)
| RangeDone (dev : option DW1000Device) (millis : Z). (* newRange *)

Definition handle (sk : sketch) (ev : event) : M unit :=
  match ev with
  | IrqSent t => on_tx_done t
  | IrqReceived t => on_rx_done t
  | DrainIter => drain_iter sk inhabitant ;;; ret tt
  | HeartbeatCheck millis => heartbeat sk millis
  | RangeDone dev millis => newRange sk dev millis
  end.

(** Runs the events in order; the value is the output of each event. *)
Fixpoint run_events (sk : sketch) (evs : list event) : M (list (list output)) :=
  match evs with
  | [] => ret []
  | ev :: evs' =>
      fun g =>
        match handle sk ev g with
        | Fault f => Fault f
        | Ok _ g1 o1 =>
            match run_events sk evs' g1 with
            | Fault f => Fault f
            | Ok os g2 o2 => Ok (o1 :: os) g2 (o1 ++ o2)%list
            end
        end
  end.

(** The calls on the ring buffer that a history makes. *)
Fixpoint ring_ops (evs : list event) : list op :=
  match evs with
  | [] => []
  | IrqSent t :: evs' => Push "T" (get_tx_ts t) :: ring_ops evs'
  | IrqReceived t :: evs' => Push "R" (get_rx_ts t) :: ring_ops evs'
  | DrainIter :: evs' => Pop :: ring_ops evs'
  | _ :: evs' => ring_ops evs'
  end.

(** What the drain loop sent during a history. *)
Fixpoint drain_outputs (evs : list event) (os : list (list output))
  : list output :=
  match evs, os with
  | DrainIter :: evs', o :: os' => (o ++ drain_outputs evs' os')%list
  | _ :: evs', _ :: os' => drain_outputs evs' os'
  | _, _ => []
  end.

(** The wire records, written out. *)
Definition event_line (b : board) (r : EventRec) : string :=
  "role=" ++ role b ++ " evt=" ++
  (if Ascii.eqb (kind r) "T" then "TX" else "RX") ++
  " dev_ts=" ++ utoa (dev_ts r) ++ nl.

Definition heartbeat_line (b : board) (host_ts : Z) : string :=
  "role=" ++ role b ++ " evt=HEARTBEAT host_ts=" ++ utoa host_ts ++ nl.

Definition range_line (b : board) (host_ts : Z) : string :=
  "role=" ++ role b ++ " evt=RANGE host_ts=" ++ utoa host_ts ++ nl.

Definition distance_line (m : spec_float) : string :=
  "Range: " ++ ftoa2 m ++ " m" ++ nl.

(** The line [newRange] prints on the serial port. *)
Definition serial_report (d : DW1000Device) : list output :=
  [SerialPrint "from: "; SerialPrintHex (getShortAddress d);
   SerialPrint (tab ++ " Range: "); SerialPrintFloat (getRange d) 2;
   SerialPrint (" m" ++ tab ++ " RX power: ");
   SerialPrintFloat (getRXPower d) 2; SerialPrintln " dBm"].

(** The range of [unsigned long long]. *)
Definition typed (r : EventRec) : Prop := (0 <= dev_ts r < 2 ^ 64)%Z.

(** What holds of the globals at any time. *)
Definition inv (g : globals) : Prop :=
  wf (gq g) /\ Forall typed (contents (gq g)).

Definition event_packet (b : board) (r : EventRec) : output :=
  UdpPacket UWB_EVT HOST_IP EVT_PORT (event_line b r).

(** The sketch of board [b] compiled with [#define ENABLE_UDP_RANGE en]. *)
Definition with_udp_range (en : bool) (b : board) : sketch :=
  {| fmt_event := fmt_event (sketch_of b);
     fmt_heartbeat := fmt_heartbeat (sketch_of b);
     fmt_range := fmt_range (sketch_of b);
     ENABLE_UDP_RANGE := en |}.

(** A board in the field, for the examples: short address 4A3C, 0.56 m,
    -56.02 dBm (both as binary32 values). *)
Definition peer : DW1000Device :=
  mkDevice 19004 (S754_finite false 9395241 (-24))
                 (S754_finite true 14685307 (-18)).

(** The packets of [out] sent through socket [s], with their ports. *)
Definition sent_on (s : socket) (out : list output) : list (Z * string) :=
  flat_map (fun o =>
    match o, s with
    | UdpPacket UWB_UDP _ port p, UWB_UDP => [(port, p)]
    | UdpPacket UWB_EVT _ port p, UWB_EVT => [(port, p)]
    | _, _ => []
    end) out.

End Firmware.

(* ===================================================================== *)
(** * The host-side Pairer *)
(* ===================================================================== *)

(** The correlation engine that listens on the event port
    ([packet_ladder.py]) is not among the sources; its Pairer is modelled
    from the specification. Host time stamps are seconds, as rationals. *)
Module Pairer.

(** Modelled from the spec: the two roles of the data model (the engine's
    source is missing). *)
Inductive Role : Type := TAG | ANCHOR.

(** Modelled from the spec: the four event kinds of the data model (the
    engine's source is missing). *)
Inductive Kind : Type := TX | RX | RANGE | HEARTBEAT.

(** Modelled from the spec: the [Event] record of the data model (the
    engine's source is missing). Role, kind, optional device time stamp,
    host time stamp, ingestion sequence. *)
Record Event : Type := mkEvent {
  role : Role;
  kind : Kind;
  device_timestamp : option Z;
  host_timestamp : Q;
  ingestion_sequence : Z
}.

(** Modelled from the spec: the opposite role, whose pending set an RX
    is matched against (the engine's source is missing). *)
Definition opposite (r : Role) : Role :=
  match r with TAG => ANCHOR | ANCHOR => TAG end.

(** Modelled from the spec: [PendingTX] (the engine's source is missing)
    is a role, a host time stamp and [expiry = host_timestamp + horizon];
    the TX event it stands for is kept with it, since a link names its
    [tx_event]. *)
Record PendingTX : Type := mkPending {
  ptx_role : Role;
  ptx_host_timestamp : Q;
  expiry : Q;
  ptx_event : Event
}.

(** Modelled from the spec: [PairedLink] (the engine's source is missing)
    is [tx_event], [rx_event] and
    [latency = rx.host_timestamp - tx.host_timestamp]. *)
Record PairedLink : Type := mkLink {
  tx_event : Event;
  rx_event : Event;
  latency : Q
}.

(** Modelled from the spec: the two horizons of the configuration
    surface (the engine's source is missing). *)
Record Config : Type := mkConfig {
  horizon : Q;             (* pairing horizon, seconds *)
  fallback_horizon : Q     (* wider horizon for RANGE-based correlation *)
}.

(** Modelled from the spec: the state the Pairer owns (the engine's
    source is missing): a pending set per role, in enqueue order, the
    links in creation order, the two diagnostic counters and the
    range-fallback markers. *)
Record State : Type := mkState {
  pending_tag : list PendingTX;
  pending_anchor : list PendingTX;
  links : list PairedLink;
  unpaired_tx : nat;
  unmatched_rx : nat;
  range_fallbacks : list Event
}.

(** Modelled from the spec: the Pairer before any event (the engine's
    source is missing). *)
Definition empty : State := mkState [] [] [] 0 0 [].

(** Modelled from the spec: the pending set of a role (the engine's
    source is missing). *)
Definition pending_of (st : State) (r : Role) : list PendingTX :=
  match r with TAG => pending_tag st | ANCHOR => pending_anchor st end.

(** Modelled from the spec: replacing the pending set of a role (the
    engine's source is missing). *)
Definition set_pending (st : State) (r : Role) (l : list PendingTX) : State :=
  match r with
  | TAG => mkState l (pending_anchor st) (links st) (unpaired_tx st)
             (unmatched_rx st) (range_fallbacks st)
  | ANCHOR => mkState (pending_tag st) l (links st) (unpaired_tx st)
                (unmatched_rx st) (range_fallbacks st)
  end.

(** Modelled from the spec: the latency
    [rx.host_timestamp - tx.host_timestamp] of a pending TX seen from an
    RX (the engine's source is missing). *)
Definition lat (rx_ts : Q) (p : PendingTX) : Q :=
  (rx_ts - ptx_host_timestamp p)%Q.

(** Modelled from the spec: a candidate (the engine's source is missing)
    has [0 <= rx.host_timestamp - tx.host_timestamp <= horizon]. *)
Definition qualifies (cfg : Config) (rx_ts : Q) (p : PendingTX) : bool :=
  Qle_bool 0 (lat rx_ts p) && Qle_bool (lat rx_ts p) (horizon cfg).

(** Modelled from the spec: the choice among the candidates (the
    engine's source is missing): the smallest latency wins, and of equal
    latencies the one enqueued first. The scan goes in enqueue order and
    replaces the best so far only by a strictly smaller latency; [i] is
    the position of the head of [l]. *)
Fixpoint select (cfg : Config) (rx_ts : Q) (l : list PendingTX) (i : nat)
    (cur : option (nat * PendingTX)) : option (nat * PendingTX) :=
  match l with
  | [] => cur
  | p :: l' =>
      let cur' :=
        if qualifies cfg rx_ts p then
          match cur with
          | None => Some (i, p)
          | Some (_, c) =>
              if Qle_bool (lat rx_ts c) (lat rx_ts p) then cur
              else Some (i, p)
          end
        else cur in
      select cfg rx_ts l' (S i) cur'
  end.

(** Modelled from the spec: the winner in a pending set and its position
    (the engine's source is missing). *)
Definition winner (cfg : Config) (rx_ts : Q) (l : list PendingTX)
  : option (nat * PendingTX) :=
  select cfg rx_ts l 0 None.

(** Modelled from the spec: an entry whose expiry has passed (the
    engine's source is missing). *)
Definition expired (now : Q) (p : PendingTX) : bool :=
  negb (Qle_bool now (expiry p)).

(** Modelled from the spec: the expiry sweep (the engine's source is
    missing): the entries that stay, and how many expired. *)
Definition sweep (now : Q) (l : list PendingTX) : list PendingTX * nat :=
  (List.filter (fun p => negb (expired now p)) l,
   length (List.filter (expired now) l)).

(** Modelled from the spec: TX arrival (the engine's source is missing):
    insert into the pending set of the role that sent, then sweep; each
    expiry counts as an unpaired TX. *)
Definition on_tx (cfg : Config) (st : State) (ev : Event) : State :=
  let now := host_timestamp ev in
  let p := mkPending (role ev) now (now + horizon cfg)%Q ev in
  let st1 := set_pending st (role ev) (pending_of st (role ev) ++ [p]) in
  let '(lt, nt) := sweep now (pending_tag st1) in
  let '(la, na) := sweep now (pending_anchor st1) in
  mkState lt la (links st1) (unpaired_tx st1 + nt + na)
          (unmatched_rx st1) (range_fallbacks st1).

(** Modelled from the spec: RX arrival (the engine's source is missing):
    scan the opposite role's pending set; remove the winner and emit a
    link, or count the RX as unmatched. *)
Definition on_rx (cfg : Config) (st : State) (ev : Event) : State :=
  let r := opposite (role ev) in
  match winner cfg (host_timestamp ev) (pending_of st r) with
  | Some (j, w) =>
      let st1 := set_pending st r (delete j (pending_of st r)) in
      mkState (pending_tag st1) (pending_anchor st1)
              (links st1 ++
               [mkLink (ptx_event w) ev (lat (host_timestamp ev) w)])
              (unpaired_tx st1) (unmatched_rx st1) (range_fallbacks st1)
  | None =>
      mkState (pending_tag st) (pending_anchor st) (links st)
              (unpaired_tx st) (S (unmatched_rx st)) (range_fallbacks st)
  end.

(** Modelled from the spec: a link that closed within the fallback
    horizon ending at [now] (the engine's source is missing). *)
Definition closed_within (cfg : Config) (now : Q) (l : PairedLink) : bool :=
  Qle_bool (now - fallback_horizon cfg)%Q (host_timestamp (rx_event l)) &&
  Qle_bool (host_timestamp (rx_event l)) now.

(** Modelled from the spec: RANGE arrival (the engine's source is
    missing): when no link closed within the fallback horizon ending at
    the RANGE's host time stamp, emit a range-fallback marker. *)
Definition on_range (cfg : Config) (st : State) (ev : Event) : State :=
  if existsb (closed_within cfg (host_timestamp ev)) (links st) then st
  else mkState (pending_tag st) (pending_anchor st) (links st)
         (unpaired_tx st) (unmatched_rx st) (range_fallbacks st ++ [ev]).

(** Modelled from the spec: one event through the Pairer (the engine's
    source is missing); HEARTBEAT events never enter pairing. *)
Definition on_event (cfg : Config) (st : State) (ev : Event) : State :=
  match kind ev with
  | TX => on_tx cfg st ev
  | RX => on_rx cfg st ev
  | RANGE => on_range cfg st ev
  | HEARTBEAT => st
  end.

(** Modelled from the spec: an event stream through the Pairer, in
    arrival order (the engine's source is missing). *)
Definition feed (cfg : Config) (evs : list Event) (st : State) : State :=
  fold_left (on_event cfg) evs st.

(** The invariant of a link. *)
Definition link_ok (cfg : Config) (l : PairedLink) : Prop :=
  (latency l ==
     host_timestamp (rx_event l) - host_timestamp (tx_event l))%Q /\
  (0 <= latency l)%Q /\ (latency l <= horizon cfg)%Q /\
  kind (tx_event l) = TX /\ kind (rx_event l) = RX /\
  role (tx_event l) = opposite (role (rx_event l)).

(** What a pending entry records of its event. *)
Definition pending_ok (r : Role) (p : PendingTX) : Prop :=
  ptx_role p = r /\ role (ptx_event p) = r /\ kind (ptx_event p) = TX /\
  ptx_host_timestamp p = host_timestamp (ptx_event p).

Definition state_ok (cfg : Config) (st : State) : Prop :=
  Forall (pending_ok TAG) (pending_tag st) /\
  Forall (pending_ok ANCHOR) (pending_anchor st) /\
  Forall (link_ok cfg) (links st).

(** Scenario 3 of the specification: TAG TX at 0.000 s and 0.010 s,
    ANCHOR RX at 0.015 s, horizon 0.3 s. *)
Definition cfg3 : Config := mkConfig (3 # 10) (1 # 1).
Definition tx_a : Event := mkEvent TAG TX (Some 100) 0 1.
Definition tx_b : Event := mkEvent TAG TX (Some 200) (10 # 1000) 2.
Definition rx_c : Event := mkEvent ANCHOR RX (Some 300) (15 # 1000) 3.

End Pairer.

(* ===================================================================== *)
(** * The AES-GCM TAG sketch *)
(* ===================================================================== *)

(** Bytes are integers in [0, 256), byte arrays are lists, a 128-bit block
    is read as a big-endian integer where arithmetic is done on it. *)

(** ** The AES-128 block cipher (FIPS 197), which mbedTLS provides *)
Module Aes.

Definition sbox : list Z :=
  [
    99; 124; 119; 123; 242; 107; 111; 197;  48;   1; 103;  43; 254; 215; 171; 118;
   202; 130; 201; 125; 250;  89;  71; 240; 173; 212; 162; 175; 156; 164; 114; 192;
   183; 253; 147;  38;  54;  63; 247; 204;  52; 165; 229; 241; 113; 216;  49;  21;
     4; 199;  35; 195;  24; 150;   5; 154;   7;  18; 128; 226; 235;  39; 178; 117;
     9; 131;  44;  26;  27; 110;  90; 160;  82;  59; 214; 179;  41; 227;  47; 132;
    83; 209;   0; 237;  32; 252; 177;  91; 106; 203; 190;  57;  74;  76;  88; 207;
   208; 239; 170; 251;  67;  77;  51; 133;  69; 249;   2; 127;  80;  60; 159; 168;
    81; 163;  64; 143; 146; 157;  56; 245; 188; 182; 218;  33;  16; 255; 243; 210;
   205;  12;  19; 236;  95; 151;  68;  23; 196; 167; 126;  61; 100;  93;  25; 115;
    96; 129;  79; 220;  34;  42; 144; 136;  70; 238; 184;  20; 222;  94;  11; 219;
   224;  50;  58;  10;  73;   6;  36;  92; 194; 211; 172;  98; 145; 149; 228; 121;
   231; 200;  55; 109; 141; 213;  78; 169; 108;  86; 244; 234; 101; 122; 174;   8;
   186; 120;  37;  46;  28; 166; 180; 198; 232; 221; 116;  31;  75; 189; 139; 138;
   112;  62; 181; 102;  72;   3; 246;  14;  97;  53;  87; 185; 134; 193;  29; 158;
   225; 248; 152;  17; 105; 217; 142; 148; 155;  30; 135; 233; 206;  85;  40; 223;
   140; 161; 137;  13; 191; 230;  66; 104;  65; 153;  45;  15; 176;  84; 187;  22
  ].

Definition sub (b : Z) : Z := nth (Z.to_nat b) sbox 0.

(** Multiplication by [x] in GF(2^8). *)
Definition xtime (b : Z) : Z :=
  Z.land (Z.lxor (Z.shiftl b 1) (if 128 <=? b then 27 else 0)) 255.

Definition xor_bytes (a b : list Z) : list Z := zip_with Z.lxor a b.

Definition sub_bytes (s : list Z) : list Z := map sub s.

(** The state is column-major: byte [r + 4c] is row [r], column [c]. *)
Definition shift_rows (s : list Z) : list Z :=
  map (fun i : nat =>
         nth ((i mod 4) + 4 * ((i / 4 + i mod 4) mod 4))%nat s 0)
      (seq 0 16).

Definition mix_column (c : list Z) : list Z :=
  match c with
  | [a0; a1; a2; a3] =>
      [Z.lxor (Z.lxor (xtime a0) (Z.lxor (xtime a1) a1)) (Z.lxor a2 a3);
       Z.lxor (Z.lxor a0 (xtime a1)) (Z.lxor (Z.lxor (xtime a2) a2) a3);
       Z.lxor (Z.lxor a0 a1) (Z.lxor (xtime a2) (Z.lxor (xtime a3) a3));
       Z.lxor (Z.lxor (Z.lxor (xtime a0) a0) a1) (Z.lxor a2 (xtime a3))]
  | _ => c
  end.

Definition mix_columns (s : list Z) : list Z :=
  flat_map (fun c : nat => mix_column (take 4 (drop (4 * c) s))) (seq 0 4).

Definition rot_word (w : list Z) : list Z := drop 1 w ++ take 1 w.

Definition next_round_key (rk : list Z) (rc : Z) : list Z :=
  let w0 := take 4 rk in
  let w1 := take 4 (drop 4 rk) in
  let w2 := take 4 (drop 8 rk) in
  let w3 := take 4 (drop 12 rk) in
  let t := xor_bytes (map sub (rot_word w3)) [rc; 0; 0; 0] in
  let w0' := xor_bytes w0 t in
  let w1' := xor_bytes w1 w0' in
  let w2' := xor_bytes w2 w1' in
  let w3' := xor_bytes w3 w2' in
  w0' ++ w1' ++ w2' ++ w3'.

Definition rcon : list Z := [1; 2; 4; 8; 16; 32; 64; 128; 27; 54].

Fixpoint key_schedule (rcs : list Z) (rk : list Z) : list (list Z) :=
  match rcs with
  | [] => []
  | rc :: rcs' =>
      let rk' := next_round_key rk rc in
      rk' :: key_schedule rcs' rk'
  end.

Definition round (s rk : list Z) : list Z :=
  xor_bytes (mix_columns (shift_rows (sub_bytes s))) rk.

Definition final_round (s rk : list Z) : list Z :=
  xor_bytes (shift_rows (sub_bytes s)) rk.

Definition encrypt_block (key block : list Z) : list Z :=
  let rks := key_schedule rcon key in
  let s0 := xor_bytes block key in
  let s9 := fold_left round (take 9 rks) s0 in
  final_round s9 (nth 9 rks []).

End Aes.

(** ** The GCM calls of mbedTLS (NIST SP 800-38D)

    mbedTLS is a library of the ESP32 toolchain, not part of the
    repository; the three calls the sketch makes are modelled after the
    standard they implement, for the 128-bit key size the sketch asks
    for. The values returned are the return code and the bytes written to
    the output buffers. *)
Module Mbedtls.

Definition MBEDTLS_ERR_GCM_AUTH_FAILED : Z := -18.   (* -0x0012 *)
Definition MBEDTLS_ERR_GCM_BAD_INPUT : Z := -20.     (* -0x0014 *)

Inductive mbedtls_cipher_id_t : Type :=
| MBEDTLS_CIPHER_ID_AES
| MBEDTLS_CIPHER_ID_OTHER.

Inductive gcm_mode : Type := MBEDTLS_GCM_ENCRYPT | MBEDTLS_GCM_DECRYPT.

(** The context after [mbedtls_gcm_setkey]: the key and the hash subkey
    [H = E_K(0^128)]. *)
Record mbedtls_gcm_context : Type := mkCtx {
  cipher_key : list Z;
  hash_key : Z
}.

(** [mbedtls_gcm_init] *)
Definition mbedtls_gcm_init : mbedtls_gcm_context := mkCtx [] 0.

Definition be_to_Z (bs : list Z) : Z :=
  fold_left (fun acc b => acc * 256 + b) bs 0.

Fixpoint Z_to_be (len : nat) (z : Z) : list Z :=
  match len with
  | O => []
  | S len' => Z_to_be len' (z / 256) ++ [z mod 256]
  end.

Definition E (key : list Z) (block : Z) : Z :=
  be_to_Z (Aes.encrypt_block key (Z_to_be 16 block)).

(** Multiplication in GF(2^128), bit 0 being the most significant one. *)
Definition R : Z := Z.shiftl 225 120.

Fixpoint gf_mul_loop (n : nat) (i : Z) (x z v : Z) : Z :=
  match n with
  | O => z
  | S n' =>
      let z' := if Z.testbit x (127 - i) then Z.lxor z v else z in
      let v' := if Z.testbit v 0 then Z.lxor (Z.shiftr v 1) R
                else Z.shiftr v 1 in
      gf_mul_loop n' (i + 1) x z' v'
  end.

Definition gf_mul (x y : Z) : Z := gf_mul_loop 128 0 x 0 y.

Definition pad16 (l : list Z) : list Z :=
  l ++ replicate ((16 - length l mod 16) mod 16) 0.

(** [GHASH_H] over whole blocks, [y] being the value so far. *)
Fixpoint ghash_loop (nblocks : nat) (h : Z) (data : list Z) (y : Z) : Z :=
  match nblocks with
  | O => y
  | S n' =>
      ghash_loop n' h (drop 16 data)
        (gf_mul (Z.lxor y (be_to_Z (take 16 data))) h)
  end.

Definition ghash (h : Z) (data : list Z) : Z :=
  ghash_loop (length data / 16) h data 0.

Definition inc32 (cb : Z) : Z :=
  cb / 2 ^ 32 * 2 ^ 32 + (cb + 1) mod 2 ^ 32.

Fixpoint keystream (key : list Z) (nblocks : nat) (cb : Z) : list Z :=
  match nblocks with
  | O => []
  | S n' => Z_to_be 16 (E key cb) ++ keystream key n' (inc32 cb)
  end.

(** [GCTR_K(icb, data)] *)
Definition gctr (key : list Z) (icb : Z) (data : list Z) : list Z :=
  zip_with Z.lxor data (keystream key ((length data + 15) / 16) icb).

(** The pre-counter block [J0]. *)
Definition j0 (h : Z) (iv : list Z) : Z :=
  if (length iv =? 12)%nat then be_to_Z iv * 2 ^ 32 + 1
  else ghash h (pad16 iv ++ Z_to_be 16 (8 * Z.of_nat (length iv))).

(** The authentication tag over additional data [add] and ciphertext
    [c]. *)
Definition gcm_tag (ctx : mbedtls_gcm_context) (iv add c : list Z)
    (tag_len : Z) : list Z :=
  let h := hash_key ctx in
  let lens := 8 * Z.of_nat (length add) * 2 ^ 64 + 8 * Z.of_nat (length c) in
  let s := ghash h (pad16 add ++ pad16 c ++ Z_to_be 16 lens) in
  take (Z.to_nat tag_len)
       (Z_to_be 16 (Z.lxor (E (cipher_key ctx) (j0 h iv)) s)).

(** [mbedtls_gcm_setkey(ctx, cipher, key, keybits)]. Key sizes 192 and
    256, which the sketch never asks for, are answered like a size that
    is not supported. *)
Definition mbedtls_gcm_setkey (ctx : mbedtls_gcm_context)
    (cipher : mbedtls_cipher_id_t) (key : list Z) (keybits : Z)
  : Z * mbedtls_gcm_context :=
  match cipher with
  | MBEDTLS_CIPHER_ID_AES =>
      if keybits =? 128 then
        let k := take 16 key in
        (0, mkCtx k (E k 0))
      else (MBEDTLS_ERR_GCM_BAD_INPUT, ctx)
  | MBEDTLS_CIPHER_ID_OTHER => (MBEDTLS_ERR_GCM_BAD_INPUT, ctx)
  end.

(** [mbedtls_gcm_crypt_and_tag(ctx, mode, length, iv, iv_len, add,
    add_len, input, output, tag_len, tag)]: return code, output, tag. *)
Definition mbedtls_gcm_crypt_and_tag (ctx : mbedtls_gcm_context)
    (mode : gcm_mode) (length : Z) (iv : list Z) (iv_len : Z)
    (add : list Z) (add_len : Z) (input : list Z) (tag_len : Z)
  : Z * list Z * list Z :=
  if (iv_len =? 0) || (tag_len <? 4) || (16 <? tag_len) || (length <? 0)
     || (68719476704 <? length)
  then (MBEDTLS_ERR_GCM_BAD_INPUT, [], [])
  else
    let iv' := take (Z.to_nat iv_len) iv in
    let add' := take (Z.to_nat add_len) add in
    let input' := take (Z.to_nat length) input in
    let icb := inc32 (j0 (hash_key ctx) iv') in
    let output := gctr (cipher_key ctx) icb input' in
    let c := match mode with
             | MBEDTLS_GCM_ENCRYPT => output
             | MBEDTLS_GCM_DECRYPT => input'
             end in
    (0, output, gcm_tag ctx iv' add' c tag_len).

(** [mbedtls_gcm_auth_decrypt(ctx, length, iv, iv_len, add, add_len, tag,
    tag_len, input, output)]: the tag is recomputed and compared in
    constant time; on a mismatch the output is zeroed. *)
Definition mbedtls_gcm_auth_decrypt (ctx : mbedtls_gcm_context)
    (length : Z) (iv : list Z) (iv_len : Z) (add : list Z) (add_len : Z)
    (tag : list Z) (tag_len : Z) (input : list Z)
  : Z * list Z :=
  let '(ret, output, check_tag) :=
    mbedtls_gcm_crypt_and_tag ctx MBEDTLS_GCM_DECRYPT length iv iv_len
      add add_len input tag_len in
  if negb (ret =? 0) then (ret, output)
  else
    let diff :=
      fold_left Z.lor
        (zip_with Z.lxor (take (Z.to_nat tag_len) tag) check_tag) 0 in
    if negb (diff =? 0)
    then (MBEDTLS_ERR_GCM_AUTH_FAILED, map (fun _ => 0) output)
    else (0, output).

End Mbedtls.

(** ** The two functions of the sketch *)
Module Crypto.
Import Mbedtls.

Definition AES_KEY_LEN : Z := 16.
Definition AES_IV_LEN : Z := 12.
Definition AES_TAG_LEN : Z := 16.
Definition MAX_PLAINTEXT_LEN : Z := 128.

(** [static const uint8_t AES_KEY[16]] *)
Definition AES_KEY : list Z :=
  [17; 34; 51; 68; 85; 102; 119; 136; 153; 170; 187; 204; 221; 238; 255; 0].

(** [[
int aesGcmEncrypt(const uint8_t *key, const uint8_t *iv,
                  const uint8_t *plaintext, size_t plen,
                  uint8_t *ciphertext, uint8_t *tag) {
  mbedtls_gcm_context ctx;
  mbedtls_gcm_init(&ctx);
  int ret = mbedtls_gcm_setkey(&ctx, MBEDTLS_CIPHER_ID_AES, key,
                               AES_KEY_LEN * 8);
  if (ret != 0) { mbedtls_gcm_free(&ctx); return ret; }
  ret = mbedtls_gcm_crypt_and_tag(&ctx, MBEDTLS_GCM_ENCRYPT, plen,
                                  iv, AES_IV_LEN, NULL, 0,
                                  plaintext, ciphertext, AES_TAG_LEN, tag);
  mbedtls_gcm_free(&ctx);
  return ret;
}
]]
    The result is the return code, the ciphertext and the tag. *)
Definition aesGcmEncrypt (key iv plaintext : list Z) (plen : Z)
  : Z * list Z * list Z :=
  let ctx := mbedtls_gcm_init in
  let '(ret, ctx) :=
    mbedtls_gcm_setkey ctx MBEDTLS_CIPHER_ID_AES key (AES_KEY_LEN * 8) in
  if negb (ret =? 0) then (ret, [], [])
  else
    mbedtls_gcm_crypt_and_tag ctx MBEDTLS_GCM_ENCRYPT plen
      iv AES_IV_LEN [] 0 plaintext AES_TAG_LEN.

(** [[
int aesGcmDecrypt(const uint8_t *key, const uint8_t *iv, const uint8_t *tag,
                  const uint8_t *ciphertext, size_t clen,
                  uint8_t *plaintext) {
  mbedtls_gcm_context ctx;
  mbedtls_gcm_init(&ctx);
  int ret = mbedtls_gcm_setkey(&ctx, MBEDTLS_CIPHER_ID_AES, key,
                               AES_KEY_LEN * 8);
  if (ret != 0) { mbedtls_gcm_free(&ctx); return ret; }
  ret = mbedtls_gcm_auth_decrypt(&ctx, clen, iv, AES_IV_LEN, NULL, 0,
                                 tag, AES_TAG_LEN, ciphertext, plaintext);
  mbedtls_gcm_free(&ctx);
  return ret;
}
]]
    The result is the return code and the plaintext. *)
Definition aesGcmDecrypt (key iv tag ciphertext : list Z) (clen : Z)
  : Z * list Z :=
  let ctx := mbedtls_gcm_init in
  let '(ret, ctx) :=
    mbedtls_gcm_setkey ctx MBEDTLS_CIPHER_ID_AES key (AES_KEY_LEN * 8) in
  if negb (ret =? 0) then (ret, [])
  else
    mbedtls_gcm_auth_decrypt ctx clen iv AES_IV_LEN [] 0
      tag AES_TAG_LEN ciphertext.

(** The bytes of a hexadecimal numeral of [len] bytes. *)
Definition hex (len : nat) (z : Z) : list Z := Z_to_be len z.

End Crypto.

(** ** The rest of the AES-GCM TAG sketch: the IV and the packet *)
Module EncSketch.
Import Fmt Firmware Mbedtls Crypto.
Local Open Scope string_scope.

Definition PACKET_VERSION : Z := 1.
Definition MAX_PACKET_LEN : Z := 1 + AES_IV_LEN + AES_TAG_LEN + MAX_PLAINTEXT_LEN.

(** The casts [(uint32_t)] and [(uint16_t)]. *)
Definition uint32 (z : Z) : Z := (z mod 2 ^ 32)%Z.
Definition uint16 (z : Z) : Z := (z mod 2 ^ 16)%Z.

(** Byte [j] of a 32-bit word in memory (the ESP32 is little-endian). *)
Definition byte_of (r : Z) (j : Z) : Z := (r / 2 ^ (8 * j) mod 256)%Z.

(** [memcpy(buf + i, &r, n)] for a 32-bit [r] and [n <= 4]. *)
Definition memcpy_word (buf : list Z) (i : Z) (r : Z) (n : Z) : list Z :=
  fold_left (fun b j => <[Z.to_nat (i + Z.of_nat j) := byte_of r (Z.of_nat j)]> b)
            (seq 0 (Z.to_nat n)) buf.

(** [[
void generateRandomIV(uint8_t *iv, size_t iv_len) {
  for (size_t i = 0; i < iv_len; i += 4) {
    uint32_t r = esp_random();
    size_t remain = iv_len - i;
    size_t copy_len = (remain >= 4) ? 4 : remain;
    memcpy(iv + i, &r, copy_len);
  }
}
]]
    [rnd k] is what the [k]-th call of [esp_random()] returns; the loop
    state is the array, the index and the number of calls made. *)
Fixpoint generateRandomIV_loop (fuel : nat) (rnd : Z -> Z) (iv_len : Z)
    (i : Z) (k : Z) (iv : list Z) : list Z * Z :=
  match fuel with
  | O => (iv, k)
  | S fuel' =>
      if (i <? iv_len)%Z then
        let r := uint32 (rnd k) in
        let remain := (iv_len - i)%Z in
        let copy_len := if (4 <=? remain)%Z then 4%Z else remain in
        generateRandomIV_loop fuel' rnd iv_len (i + 4)%Z (k + 1)%Z
          (memcpy_word iv i r copy_len)
      else (iv, k)
  end.

(** At most [iv_len] rounds are needed. *)
Definition generateRandomIV (rnd : Z -> Z) (k : Z) (iv : list Z) (iv_len : Z)
  : list Z * Z :=
  generateRandomIV_loop (Z.to_nat iv_len) rnd iv_len 0 k iv.

(** ** [%04X] and [%.3f] *)

Definition hex_digit (d : Z) : ascii :=
  if (d <? 10)%Z then ascii_of_nat (Z.to_nat (48 + d))
  else ascii_of_nat (Z.to_nat (55 + d)).

Fixpoint utox_loop (fuel : nat) (n : Z) (acc : string) : string :=
  match fuel with
  | O => acc
  | S fuel' =>
      let acc' := String (hex_digit (n mod 16)) acc in
      if (n / 16 =? 0)%Z then acc' else utox_loop fuel' (n / 16) acc'
  end.

Definition utox (n : Z) : string :=
  utox_loop (S (Z.to_nat (Z.log2 n))) n "".

Fixpoint zeros (n : nat) : string :=
  match n with O => "" | S n' => String "0" (zeros n') end.

(** Zero padding to a minimum width. *)
Definition pad0 (width : nat) (s : string) : string :=
  zeros (width - String.length s) ++ s.

Definition fixed3 (h : Z) : string :=
  utoa (h / 1000) ++ "." ++
  String (digit (h / 100 mod 10))
    (String (digit (h / 10 mod 10)) (String (digit (h mod 10)) "")).

Definition ftoa3 (f : spec_float) : string :=
  match f with
  | S754_nan => "nan"
  | S754_infinity s => sign_str s ++ "inf"
  | S754_zero s => sign_str s ++ "0.000"
  | S754_finite s m e => sign_str s ++ fixed3 (round_scaled (Z.pos m * 1000) e)
  end.

(** The expansion of the formats of this sketch. *)
Fixpoint sprintf_enc (fmt : string) (args : list arg) {struct fmt}
  : option string :=
  match fmt with
  | EmptyString => Some EmptyString
  | String c rest =>
      if Ascii.eqb c "%" then
        match rest, args with
        | String "0" (String "4" (String "X" r1)), ArgU n :: args' =>
            option_map (append (pad0 4 (utox n))) (sprintf_enc r1 args')
        | String "." (String "3" (String "f" r1)), ArgF f :: args' =>
            option_map (append (ftoa3 f)) (sprintf_enc r1 args')
        | _, _ => None
        end
      else option_map (String c) (sprintf_enc rest args)
  end.

(** The bytes of a C string. *)
Definition bytes_of (s : string) : list Z :=
  map (fun c => Z.of_nat (nat_of_ascii c)) (list_ascii_of_string s).

(** ** [newRange()] *)

Inductive serial_output : Type :=
| SerialWrite (bytes : list Z)       (* Serial.write(packet, offset) *)
| SerialFlush                        (* Serial.flush()               *)
| Print (s : string)                 (* Serial.print("...")          *)
| Println (s : string)               (* Serial.println("...")        *)
| PrintlnInt (n : Z).                (* Serial.println(ret)          *)

(** The plaintext line, before any truncation. *)
Definition plaintext_line (shortAddr : Z) (distance : spec_float) : string :=
  pad0 4 (utox shortAddr) ++ "," ++ ftoa3 distance ++ nl.

(** [[
void newRange() {
  DW1000Device *dev = DW1000Ranging.getDistantDevice();
  if (dev == nullptr) {
    Serial.println("ERR: no distant device");
    return;
  }
  uint16_t shortAddr = dev->getShortAddress();
  float distance = dev->getRange();
  char plaintext[MAX_PLAINTEXT_LEN];
  int plen = snprintf(plaintext, sizeof(plaintext), "%04X,%.3f\n",
                      shortAddr, distance);
  if (plen <= 0 || plen > (int)MAX_PLAINTEXT_LEN) {
    Serial.println("ERR: plaintext too long or format error");
    return;
  }
  uint8_t iv[AES_IV_LEN];
  uint8_t tag[AES_TAG_LEN];
  uint8_t ciphertext[MAX_PLAINTEXT_LEN];
  generateRandomIV(iv, AES_IV_LEN);
  int ret = aesGcmEncrypt(AES_KEY, iv, (const uint8_t * )plaintext,
                          (size_t)plen, ciphertext, tag);
  if (ret != 0) {
    Serial.print("ERR: aesGcmEncrypt failed, ret = ");
    Serial.println(ret);
    return;
  }
  uint8_t packet[MAX_PACKET_LEN];
  size_t offset = 0;
  packet[offset++] = PACKET_VERSION;
  memcpy(packet + offset, iv, AES_IV_LEN);        offset += AES_IV_LEN;
  memcpy(packet + offset, tag, AES_TAG_LEN);      offset += AES_TAG_LEN;
  memcpy(packet + offset, ciphertext, (size_t)plen); offset += (size_t)plen;
  Serial.write(packet, offset);
  Serial.flush();
}
]]
    [iv0] is what the 12 bytes of [iv] hold when the function is entered
    (the array is not initialised), [rnd] the values of [esp_random()].
    The array [plaintext] holds the characters [snprintf] stored and the
    terminator. [USE_UDP] is 0. *)
Definition newRange_enc (dev : option DW1000Device) (rnd : Z -> Z) (iv0 : list Z)
  : list serial_output :=
  match dev with
  | None => [Println "ERR: no distant device"]
  | Some d =>
      let shortAddr := uint16 (getShortAddress d) in
      let distance := getRange d in
      match sprintf_enc ("%04X,%.3f" ++ nl) [ArgU shortAddr; ArgF distance] with
      | None => [Println "ERR: plaintext too long or format error"]
      | Some s =>
          let plaintext :=
            (bytes_of (substring 0 (Z.to_nat MAX_PLAINTEXT_LEN - 1) s) ++ [0])%list in
          let plen := Z.of_nat (String.length s) in
          if ((plen <=? 0) || (MAX_PLAINTEXT_LEN <? plen))%Z then
            [Println "ERR: plaintext too long or format error"]
          else
            let iv := (generateRandomIV rnd 0 iv0 AES_IV_LEN).1 in
            let '(ret, ciphertext, tag) :=
              aesGcmEncrypt AES_KEY iv plaintext plen in
            if negb (ret =? 0)%Z then
              [Print "ERR: aesGcmEncrypt failed, ret = ";
               PrintlnInt ret]
            else
              let packet :=
                ([PACKET_VERSION] ++ take (Z.to_nat AES_IV_LEN) iv ++
                 take (Z.to_nat AES_TAG_LEN) tag ++
                 take (Z.to_nat plen) ciphertext)%list in
              [SerialWrite packet; SerialFlush]
      end
  end.

(** What a receiver does with a packet: split it at the fixed offsets and
    decrypt with the shared key. *)
Definition open_packet (packet : list Z) : Z * list Z :=
  let iv := take 12 (drop 1 packet) in
  let tag := take 16 (drop 13 packet) in
  let ciphertext := drop 29 packet in
  aesGcmDecrypt AES_KEY iv tag ciphertext (Z.of_nat (length ciphertext)).

(** The 32-bit word whose bytes in memory are [bs]. *)
Definition word_of (bs : list Z) : Z :=
  fold_right (fun b acc => b + 256 * acc)%Z 0%Z bs.

(** The bytes [generateRandomIV] is to write: word [p / 4], byte [p mod 4]. *)
Definition iv_bytes (rnd : Z -> Z) (k : Z) (n : nat) : list Z :=
  map (fun p : nat =>
         byte_of (uint32 (rnd (k + Z.of_nat p / 4)%Z)) (Z.of_nat p mod 4))
      (seq 0 n).

End EncSketch.

(* ===================================================================== *)
(** * Ways the sketch code is used *)
(* ===================================================================== *)

Module Use.
Import Ring Firmware.

(** The handlers store a burst of records: one [isr_push] each. *)
Definition burst (rs : list EventRec) : list op :=
  map (fun r => Push (kind r) (dev_ts r)) rs.

(** The consumer calls [pop] [n] times. *)
Definition pops (n : nat) : list op := replicate n Pop.

(** The events of a history that touch the ring buffer. *)
Definition touches_ring (ev : event) : bool :=
  match ev with
  | IrqSent _ | IrqReceived _ | DrainIter => true
  | HeartbeatCheck _ | RangeDone _ _ => false
  end.

Definition ring_only (evs : list event) : list event :=
  List.filter touches_ring evs.

(** The three integers [Z.lt] compares in the bounds of a queue. *)
(** The records of the interrupts in a history, in order of arrival. *)
Fixpoint irq_records (evs : list event) : list EventRec :=
  match evs with
  | [] => []
  | IrqSent t :: evs' => mkEventRec "T" (get_tx_ts t) :: irq_records evs'
  | IrqReceived t :: evs' => mkEventRec "R" (get_rx_ts t) :: irq_records evs'
  | _ :: evs' => irq_records evs'
  end.

(** Nothing in the history takes a record out of the queue. *)
Definition no_drain (evs : list event) : bool :=
  forallb (fun ev => match ev with DrainIter => false | _ => true end) evs.

Definition in_bounds (s : queue) : bool :=
  (length (q s) =? 64)%nat &&
  (0 <=? q_head s) && (q_head s <? 64) &&
  (0 <=? q_tail s) && (q_tail s <? 64).

End Use.

(* ===================================================================== *)
(** * Properties of the conversions *)
(* ===================================================================== *)

Module FmtFacts.
Import Fmt.
Local Open Scope string_scope.

Lemma append_assoc (a b c : string) : (a ++ b) ++ c = a ++ (b ++ c).
Proof. induction a as [|x a IH]; simpl; [reflexivity|now rewrite IH]. Qed.

Lemma length_append (a b : string) :
  String.length (a ++ b) = (String.length a + String.length b)%nat.
Proof. induction a as [|x a IH]; simpl; [reflexivity|now rewrite IH]. Qed.

Lemma substring_all (s : string) (n : nat) :
  (String.length s <= n)%nat -> substring 0 n s = s.
Proof.
  revert n. induction s as [|c s IH]; intros n Hn.
  - now destruct n.
  - destruct n as [|n]; simpl in *; [lia|]. rewrite IH by lia. reflexivity.
Qed.

Lemma all_chars_append (p : ascii -> bool) (a b : string) :
  all_chars p (a ++ b) = all_chars p a && all_chars p b.
Proof.
  induction a as [|x a IH]; simpl; [reflexivity|].
  now rewrite IH, andb_assoc.
Qed.

Lemma all_chars_impl (p p' : ascii -> bool) (s : string) :
  (forall c, p c = true -> p' c = true) ->
  all_chars p s = true -> all_chars p' s = true.
Proof.
  intros Hpp'. induction s as [|c s IH]; simpl; [reflexivity|].
  rewrite !andb_true_iff. intros [H1 H2]. split; auto.
Qed.

Lemma atou_loop_append (a b : string) (acc : Z) :
  atou_loop (a ++ b) acc = atou_loop b (atou_loop a acc).
Proof. revert acc. induction a as [|x a IH]; intros acc; simpl; auto. Qed.

Lemma nat_of_digit (d : Z) :
  (0 <= d <= 9)%Z -> Z.of_nat (nat_of_ascii (digit d)) = (48 + d)%Z.
Proof.
  intros Hd. unfold digit. rewrite nat_ascii_embedding by lia. lia.
Qed.

Lemma digit_val_digit (d : Z) : (0 <= d <= 9)%Z -> digit_val (digit d) = d.
Proof. intros Hd. unfold digit_val. rewrite nat_of_digit by lia. lia. Qed.

Lemma is_digit_digit (d : Z) : (0 <= d <= 9)%Z -> is_digit (digit d) = true.
Proof.
  intros Hd. unfold is_digit. rewrite nat_of_digit by lia.
  apply andb_true_iff. split; apply Z.leb_le; lia.
Qed.

(** What the conversion loop computes: the digits of [n], most
    significant first, in front of the accumulator. *)
Lemma utoa_loop_spec (fuel : nat) :
  forall (n : Z) (acc : string),
    (0 <= n < 2 ^ Z.of_nat fuel)%Z ->
    exists ds,
      utoa_loop fuel n acc = ds ++ acc /\
      all_chars is_digit ds = true /\
      forall a, atou_loop ds a = (a * 10 ^ Z.of_nat (String.length ds) + n)%Z.
Proof.
  induction fuel as [|fuel IH]; intros n acc Hn.
  - exists "". simpl in *. repeat split. intros a. lia.
  - simpl utoa_loop.
    assert (Hd : (0 <= n mod 10 <= 9)%Z) by (Z.div_mod_to_equations; lia).
    destruct (Z.eqb_spec (n / 10) 0) as [Hz|Hnz].
    + exists (String (digit (n mod 10)) ""). simpl.
      rewrite is_digit_digit by exact Hd. repeat split.
      intros a. rewrite digit_val_digit by exact Hd.
      Z.div_mod_to_equations. lia.
    + assert (Hq : (0 <= n / 10 < 2 ^ Z.of_nat fuel)%Z).
      { rewrite Nat2Z.inj_succ, Z.pow_succ_r in Hn by lia.
        Z.div_mod_to_equations. lia. }
      destruct (IH (n / 10)%Z (String (digit (n mod 10)) acc) Hq)
        as (ds & Heq & Hdig & Hval).
      exists (ds ++ String (digit (n mod 10)) ""). split; [|split].
      * rewrite Heq, append_assoc. reflexivity.
      * rewrite all_chars_append, Hdig. simpl.
        now rewrite is_digit_digit by exact Hd.
      * intros a. rewrite atou_loop_append, Hval. simpl.
        rewrite digit_val_digit by exact Hd.
        rewrite length_append. simpl.
        rewrite Nat.add_1_r, Nat2Z.inj_succ, Z.pow_succ_r by lia.
        Z.div_mod_to_equations. lia.
Qed.

Lemma utoa_fuel (n : Z) :
  (0 <= n)%Z -> (0 <= n < 2 ^ Z.of_nat (S (Z.to_nat (Z.log2 n))))%Z.
Proof.
  intros Hn. split; [exact Hn|].
  pose proof (Z.log2_nonneg n) as Hl.
  rewrite Nat2Z.inj_succ, Z2Nat.id by exact Hl.
  destruct (Z.eq_dec n 0) as [->|Hnz]; [reflexivity|].
  apply Z.log2_spec. lia.
Qed.

(** The numeral reads back as the number, and is made of digits only. *)
Lemma atou_utoa (n : Z) : (0 <= n)%Z -> atou (utoa n) = n.
Proof.
  intros Hn. unfold atou, utoa.
  destruct (utoa_loop_spec _ n "" (utoa_fuel n Hn)) as (ds & Heq & _ & Hval).
  rewrite Heq, atou_loop_append, Hval. simpl. lia.
Qed.

Lemma utoa_digits (n : Z) :
  (0 <= n)%Z -> all_chars is_digit (utoa n) = true.
Proof.
  intros Hn. unfold utoa.
  destruct (utoa_loop_spec _ n "" (utoa_fuel n Hn)) as (ds & Heq & Hdig & _).
  rewrite Heq, all_chars_append, Hdig. reflexivity.
Qed.

Lemma utoa_loop_length (fuel : nat) :
  forall (n : Z) (acc : string) (k : nat),
    (0 <= n < 10 ^ Z.of_nat k)%Z -> (1 <= k)%nat ->
    (String.length (utoa_loop fuel n acc) <= k + String.length acc)%nat.
Proof.
  induction fuel as [|fuel IH]; intros n acc k Hn Hk; simpl; [lia|].
  destruct (Z.eqb_spec (n / 10) 0) as [Hz|Hnz]; simpl; [lia|].
  destruct k as [|[|k]]; [lia| |].
  - exfalso. change (10 ^ Z.of_nat 1)%Z with 10%Z in Hn.
    Z.div_mod_to_equations. lia.
  - assert (Hq : (0 <= n / 10 < 10 ^ Z.of_nat (S k))%Z).
    { rewrite (Nat2Z.inj_succ (S k)), Z.pow_succ_r in Hn by lia.
      Z.div_mod_to_equations. lia. }
    specialize (IH (n / 10)%Z (String (digit (n mod 10)) acc) (S k) Hq).
    simpl in IH. lia.
Qed.

(** A number below [10^k] has at most [k] digits. *)
Lemma utoa_length (n : Z) (k : nat) :
  (0 <= n < 10 ^ Z.of_nat k)%Z -> (1 <= k)%nat ->
  (String.length (utoa n) <= k)%nat.
Proof.
  intros Hn Hk. unfold utoa.
  pose proof (utoa_loop_length (S (Z.to_nat (Z.log2 n))) n "" k Hn Hk) as H.
  change (String.length "") with 0%nat in H.
  rewrite Nat.add_0_r in H. exact H.
Qed.

Lemma digit_line_char (c : ascii) : is_digit c = true -> line_char c = true.
Proof.
  unfold is_digit, line_char. rewrite andb_true_iff, !Z.leb_le.
  intros [H1 H2].
  destruct (Ascii.eqb_spec c (ascii_of_nat 10)) as [->|_].
  { change (Z.of_nat (nat_of_ascii (ascii_of_nat 10))) with 10%Z in H1. lia. }
  destruct (Ascii.eqb_spec c zero) as [->|_].
  { change (Z.of_nat (nat_of_ascii zero)) with 0%Z in H1. lia. }
  simpl. apply Nat.ltb_lt. lia.
Qed.

Lemma utoa_line_chars (n : Z) :
  (0 <= n)%Z -> all_chars line_char (utoa n) = true.
Proof.
  intros Hn. apply (all_chars_impl is_digit); [apply digit_line_char|].
  now apply utoa_digits.
Qed.

Lemma is_line_append_nl (s : string) :
  all_chars line_char s = true -> is_line (s ++ nl) = true.
Proof.
  induction s as [|c s IH]; [reflexivity|].
  simpl all_chars. rewrite andb_true_iff. intros [Hc Hs].
  specialize (IH Hs). simpl. rewrite Hc, IH.
  now destruct s.
Qed.

Lemma snprintf_fits (size : nat) (fmt : string) (args : list arg) (s : string) :
  sprintf fmt args = Some s -> (String.length s < size)%nat ->
  snprintf size fmt args = Some (s, Z.of_nat (String.length s)).
Proof.
  intros Hs Hlen. unfold snprintf. rewrite Hs.
  rewrite substring_all by lia. reflexivity.
Qed.

Lemma length_substring_le (s : string) (n : nat) :
  (String.length (substring 0 n s) <= n)%nat.
Proof.
  revert n. induction s as [|c s IH]; intros [|n]; simpl; try lia.
  specialize (IH n). lia.
Qed.

Lemma read_bytes_all (buf : string) : read_bytes buf (strlen buf) = Some buf.
Proof.
  unfold read_bytes, strlen.
  destruct (Z.leb_spec 0 (Z.of_nat (String.length buf))); [|lia].
  destruct (Z.leb_spec (Z.of_nat (String.length buf))
                       (Z.of_nat (String.length buf))); [|lia].
  simpl. rewrite Nat2Z.id. now rewrite substring_all.
Qed.

(** The mantissa of a binary32 value has at most 24 bits. *)
Lemma digits2_pos_bound (m : positive) :
  (Z.pos m < 2 ^ Z.pos (digits2_pos m))%Z.
Proof.
  induction m as [m IH|m IH|]; simpl digits2_pos;
    rewrite ?Pos2Z.inj_succ, ?Z.pow_succ_r by lia; lia.
Qed.

Lemma float32_bounds (s : bool) (m : positive) (e : Z) :
  is_float32 (S754_finite s m e) = true ->
  (Z.pos m < 2 ^ 24 /\ e <= 104)%Z.
Proof.
  unfold is_float32, valid_binary, bounded, canonical_mantissa, fexp, emin.
  rewrite andb_true_iff, Z.eqb_eq, Z.leb_le. intros [Hc He].
  split; [|lia].
  pose proof (digits2_pos_bound m) as Hm.
  assert (Hd : (Z.pos (digits2_pos m) <= 24)%Z) by lia.
  eapply Z.lt_le_trans; [exact Hm|].
  apply Z.pow_le_mono_r; lia.
Qed.

End FmtFacts.

(* ===================================================================== *)
(** * Properties of the ring buffer *)
(* ===================================================================== *)

Module RingFacts.
Import Ring.

Lemma land_63 (x : Z) : Z.land x 63 = x mod 64.
Proof. change 63 with (Z.ones 6). now rewrite Z.land_ones by lia. Qed.

Lemma next_index (i : Z) :
  0 <= i < 64 -> uint8 (Z.land (i + 1) 63) = (i + 1) mod 64.
Proof.
  intros Hi. unfold uint8. rewrite land_63.
  apply Z.mod_small. Z.div_mod_to_equations. lia.
Qed.

Lemma set_both (i : Z) (k : ascii) (ts : Z) (a : list EventRec) :
  (Z.to_nat i < length a)%nat ->
  set_dev_ts i ts (set_kind i k a) = <[Z.to_nat i := mkEventRec k ts]> a.
Proof.
  intros Hi. unfold set_dev_ts, set_kind.
  rewrite list_insert_insert_eq.
  rewrite list_lookup_total_insert_eq by exact Hi. reflexivity.
Qed.

Lemma wf_init : wf q_init.
Proof. unfold wf, q_init; simpl. repeat split; lia. Qed.

Lemma isr_push_unfold (k : ascii) (ts : Z) (s : queue) :
  wf s ->
  isr_push k ts s =
    if full s then s
    else mkQueue (<[Z.to_nat (q_head s) := mkEventRec k ts]> (q s))
                 ((q_head s + 1) mod 64) (q_tail s).
Proof.
  intros (Hl & Hh & Ht). unfold isr_push, full.
  destruct (_ =? _); [reflexivity|].
  rewrite set_both by lia. now rewrite next_index.
Qed.

Lemma pop_unfold (out : EventRec) (s : queue) :
  wf s ->
  pop out s =
    if q_tail s =? q_head s then (false, out, s)
    else (true, q s !!! Z.to_nat (q_tail s),
          mkQueue (q s) (q_head s) ((q_tail s + 1) mod 64)).
Proof.
  intros (Hl & Hh & Ht). unfold pop.
  destruct (_ =? _); [reflexivity|].
  rewrite next_index by lia. simpl.
  now destruct (q s !!! Z.to_nat (q_tail s)).
Qed.

Lemma full_pending (s : queue) : wf s -> full s = (pending s =? 63).
Proof.
  intros (Hl & Hh & Ht). unfold full, pending, QSIZE.
  rewrite next_index by lia.
  destruct (_ =? q_tail s) eqn:E1, (_ =? 63) eqn:E2; try reflexivity;
    exfalso; revert E1 E2; rewrite ?Z.eqb_eq, ?Z.eqb_neq;
    Z.div_mod_to_equations; lia.
Qed.

Lemma empty_pending (s : queue) :
  wf s -> (q_tail s =? q_head s) = (pending s =? 0).
Proof.
  intros (Hl & Hh & Ht). unfold pending, QSIZE.
  destruct (_ =? q_head s) eqn:E1, (_ =? 0) eqn:E2; try reflexivity;
    exfalso; revert E1 E2; rewrite ?Z.eqb_eq, ?Z.eqb_neq;
    Z.div_mod_to_equations; lia.
Qed.

Lemma wf_isr_push (k : ascii) (ts : Z) (s : queue) :
  wf s -> wf (isr_push k ts s).
Proof.
  intros H. rewrite isr_push_unfold by exact H.
  destruct (full s); [exact H|].
  destruct H as (Hl & Hh & Ht). unfold wf; simpl.
  rewrite length_insert. repeat split; try lia;
    Z.div_mod_to_equations; lia.
Qed.

Lemma wf_pop (out : EventRec) (s : queue) :
  wf s -> wf (pop out s).2.
Proof.
  intros H. rewrite pop_unfold by exact H.
  destruct (_ =? _); [exact H|].
  destruct H as (Hl & Hh & Ht). unfold wf; simpl.
  repeat split; try lia; Z.div_mod_to_equations; lia.
Qed.

Lemma pending_range (s : queue) : 0 <= pending s < 64.
Proof. unfold pending, QSIZE. Z.div_mod_to_equations. lia. Qed.

Lemma length_contents (s : queue) :
  Z.of_nat (length (contents s)) = pending s.
Proof.
  unfold contents. rewrite length_map, length_seq.
  pose proof (pending_range s). lia.
Qed.

(** A stored record lands behind everything that was pending. *)
Lemma contents_push (k : ascii) (ts : Z) (s : queue) :
  wf s -> full s = false ->
  contents (isr_push k ts s) = contents s ++ [mkEventRec k ts].
Proof.
  intros Hwf Hfull. rewrite isr_push_unfold, Hfull by exact Hwf.
  rewrite full_pending in Hfull by exact Hwf. apply Z.eqb_neq in Hfull.
  destruct Hwf as (Hl & Hh & Ht). pose proof (pending_range s) as Hp.
  unfold contents; simpl.
  assert (Hp' : pending (mkQueue (<[Z.to_nat (q_head s) := mkEventRec k ts]> (q s))
                          ((q_head s + 1) mod 64) (q_tail s)) = pending s + 1).
  { revert Hfull Hp. unfold pending, QSIZE; simpl. intros.
    Z.div_mod_to_equations. lia. }
  rewrite Hp'. replace (Z.to_nat (pending s + 1)) with (S (Z.to_nat (pending s))) by lia.
  rewrite seq_S, map_app. simpl. f_equal.
  - apply map_ext_in. intros i Hi. apply in_seq in Hi.
    apply list_lookup_total_insert_ne.
    revert Hi Hp. unfold pending, QSIZE. intros.
    Z.div_mod_to_equations. lia.
  - f_equal.
    replace (Z.to_nat ((q_tail s + Z.of_nat (Z.to_nat (pending s))) mod QSIZE))
      with (Z.to_nat (q_head s)).
    + apply list_lookup_total_insert_eq. lia.
    + f_equal. revert Hp. unfold pending, QSIZE. intros.
      Z.div_mod_to_equations. lia.
Qed.

(** The consumer reads the oldest pending record and leaves the rest. *)
Lemma contents_pop (out : EventRec) (s : queue) :
  wf s -> (q_tail s =? q_head s) = false ->
  exists r, pop out s = (true, r, (pop out s).2) /\
            contents s = r :: contents (pop out s).2.
Proof.
  intros Hwf Hne. rewrite pop_unfold, Hne by exact Hwf.
  rewrite empty_pending in Hne by exact Hwf. apply Z.eqb_neq in Hne.
  destruct Hwf as (Hl & Hh & Ht). pose proof (pending_range s) as Hp.
  eexists; split; [reflexivity|]. simpl.
  unfold contents; simpl.
  assert (Hp' : pending (mkQueue (q s) (q_head s) ((q_tail s + 1) mod 64))
                = pending s - 1).
  { revert Hne Hp. unfold pending, QSIZE; simpl. intros.
    Z.div_mod_to_equations. lia. }
  rewrite Hp'.
  replace (Z.to_nat (pending s)) with (S (Z.to_nat (pending s - 1))) by lia.
  simpl. f_equal.
  - f_equal. f_equal. unfold QSIZE. Z.div_mod_to_equations. lia.
  - rewrite <- seq_shift, map_map. apply map_ext. intros i.
    f_equal. f_equal. unfold QSIZE. Z.div_mod_to_equations. lia.
Qed.

(** One call on the ring buffer is one call on the bounded queue, seen
    through [contents]. *)
Lemma step_simulation (o : op) (s : queue) :
  wf s ->
  wf (step o s).2 /\
  Fifo.fifo_step o (contents s) = ((step o s).1, contents (step o s).2).
Proof.
  intros Hwf. destruct o as [k ts|]; unfold step, Fifo.fifo_step.
  - simpl. split; [now apply wf_isr_push|].
    unfold Fifo.fifo_push, Fifo.capacity.
    pose proof (length_contents s) as Hlen.
    pose proof (full_pending s Hwf) as Hf.
    destruct (full s) eqn:Hfull; symmetry in Hf.
    + apply Z.eqb_eq in Hf.
      destruct (Nat.ltb_spec (length (contents s)) 63); [lia|].
      simpl. now rewrite isr_push_unfold, Hfull.
    + apply Z.eqb_neq in Hf. pose proof (pending_range s).
      destruct (Nat.ltb_spec (length (contents s)) 63); [|lia].
      simpl. now rewrite contents_push.
  - destruct (q_tail s =? q_head s) eqn:E.
    + rewrite pop_unfold, E by exact Hwf. simpl. split; [exact Hwf|].
      rewrite empty_pending in E by exact Hwf. apply Z.eqb_eq in E.
      pose proof (length_contents s).
      destruct (contents s); [reflexivity|simpl in *; lia].
    + pose proof (wf_pop inhabitant s Hwf) as Hwf'.
      destruct (contents_pop inhabitant s Hwf E) as (r & Hr & Hc).
      destruct (pop inhabitant s) as [[b r'] s'] eqn:Ep.
      simpl in Hr, Hwf', Hc. inversion Hr; subst b r'. simpl.
      split; [exact Hwf'|]. now rewrite Hc.
Qed.

Lemma run_simulation (ops : list op) (s : queue) :
  wf s ->
  wf (run ops s).2 /\
  Fifo.fifo_run ops (contents s) = ((run ops s).1, contents (run ops s).2).
Proof.
  revert s. induction ops as [|o ops IH]; intros s Hwf; simpl.
  - now split.
  - destruct (step_simulation o s Hwf) as [Hwf1 Hs].
    destruct (step o s) as [x s1] eqn:E1. simpl in *.
    destruct (IH s1 Hwf1) as [Hwf2 Hr].
    destruct (run ops s1) as [xs s2] eqn:E2. simpl in *.
    split; [exact Hwf2|]. now rewrite Hs, Hr.
Qed.

(** The history balance is the number of queued records. *)
Lemma fifo_balance (ops : list op) (l : list EventRec) :
  Z.of_nat (length (Fifo.fifo_run ops l).2) =
  Z.of_nat (length l) + balance (Fifo.fifo_run ops l).1.
Proof.
  revert l. induction ops as [|o ops IH]; intros l; simpl; [lia|].
  destruct (Fifo.fifo_step o l) as [x l1] eqn:E1.
  specialize (IH l1). destruct (Fifo.fifo_run ops l1) as [xs l2] eqn:E2.
  simpl in *. rewrite IH. clear IH E2.
  destruct o as [k ts|]; simpl in E1.
  - unfold Fifo.fifo_push in E1. destruct (_ <? _)%nat; inversion E1; subst; simpl.
    + rewrite length_app. simpl. lia.
    + lia.
  - destruct l; inversion E1; subst; simpl; lia.
Qed.

(** On the bounded queue, what was stored is what was handed out followed
    by what is still queued. *)
Lemma fifo_order (ops : list op) (l : list EventRec) :
  l ++ accepted ops (Fifo.fifo_run ops l).1 =
  popped (Fifo.fifo_run ops l).1 ++ (Fifo.fifo_run ops l).2.
Proof.
  revert l. induction ops as [|o ops IH]; intros l; simpl.
  - now rewrite app_nil_r.
  - destruct (Fifo.fifo_step o l) as [x l1] eqn:E1.
    specialize (IH l1). destruct (Fifo.fifo_run ops l1) as [xs l2] eqn:E2.
    simpl in *. destruct o as [k ts|]; simpl in E1.
    + unfold Fifo.fifo_push in E1.
      destruct (_ <? _)%nat; inversion E1; subst; simpl.
      * rewrite <- IH, <- app_assoc. reflexivity.
      * exact IH.
    + destruct l as [|r l]; inversion E1; subst; simpl.
      * exact IH.
      * now rewrite IH.
Qed.

(** [pop], read on the occupied slots. *)
Lemma pop_cases (out : EventRec) (s : queue) :
  wf s ->
  (contents s = [] /\ pop out s = (false, out, s)) \/
  (exists r, contents s = r :: contents (pop out s).2 /\
             pop out s = (true, r, (pop out s).2)).
Proof.
  intros Hwf. destruct (q_tail s =? q_head s) eqn:E.
  - left. rewrite pop_unfold, E by exact Hwf. split; [|reflexivity].
    rewrite empty_pending in E by exact Hwf. apply Z.eqb_eq in E.
    pose proof (length_contents s).
    destruct (contents s); [reflexivity|simpl in *; lia].
  - right. destruct (contents_pop out s Hwf E) as (r & Hr & Hc).
    exists r. now split.
Qed.

Lemma contents_init : contents q_init = [].
Proof. reflexivity. Qed.

Lemma run_from_init (ops : list op) :
  wf (run ops q_init).2 /\
  Fifo.fifo_run ops [] = ((run ops q_init).1, contents (run ops q_init).2).
Proof.
  destruct (run_simulation ops q_init wf_init) as [H1 H2].
  rewrite contents_init in H2. now split.
Qed.

(** C1. From the empty queue, after any sequence of [isr_push] and [pop]
    calls, the number of pending events (records stored minus records
    handed out, which is the number of occupied slots) is at most 63 and
    so never exceeds the 64 slots; an [isr_push] on a full queue returns
    the state it was given, and otherwise appends the new record behind
    the queued ones, which stay as they are. *)
Theorem ring_bounded_drop_newest (ops : list op) (k : ascii) (ts : Z) :
  let xs := (run ops q_init).1 in
  let s := (run ops q_init).2 in
  balance xs = Z.of_nat (length (contents s)) /\
  0 <= balance xs <= 63 /\
  balance xs <= QSIZE /\
  length (q s) = Z.to_nat QSIZE /\
  full s = (balance xs =? 63) /\
  if full s then isr_push k ts s = s
  else contents (isr_push k ts s) = contents s ++ [mkEventRec k ts].
Proof.
  intros xs s. subst xs s.
  destruct (run_from_init ops) as [Hwf Hsim].
  pose proof (fifo_balance ops []) as Hb. rewrite Hsim in Hb. simpl in Hb.
  set (s := (run ops q_init).2) in *. set (xs := (run ops q_init).1) in *.
  pose proof (length_contents s) as Hl. pose proof (pending_range s) as Hp.
  assert (Hbal : balance xs = pending s) by lia.
  repeat split; try (unfold QSIZE; lia).
  - apply Hwf.
  - rewrite Hbal. now apply full_pending.
  - destruct (full s) eqn:Hf.
    + now rewrite isr_push_unfold, Hf.
    + now apply contents_push.
Qed.

(** C1, on a run: 63 stored records fill the queue; the 64th call and the
    65th leave the state as it is. *)
Lemma ring_full_example :
  let s := (run (pushes 0 63) q_init).2 in
  full s = true /\ length (contents s) = 63%nat /\
  isr_push "R"%char 1000 s = s /\
  (run (pushes 0 65) q_init).2 = s.
Proof. vm_compute. repeat split; reflexivity. Qed.

(** C8. The ring buffer run from the empty queue behaves as the bounded
    FIFO queue: every call returns what the queue returns, the occupied
    slots are the queue, the records stored are, in order, the records
    handed out followed by the records still queued, and [pop] returns
    [false] exactly when no record is queued (leaving [out] and the state
    untouched). *)
Theorem ring_refines_fifo (ops : list op) (out : EventRec) :
  let xs := (run ops q_init).1 in
  let s := (run ops q_init).2 in
  xs = (Fifo.fifo_run ops []).1 /\
  contents s = (Fifo.fifo_run ops []).2 /\
  accepted ops xs = popped xs ++ contents s /\
  (pop out s).1.1 = negb (is_nil (contents s)) /\
  pop out s =
    match contents s with
    | [] => (false, out, s)
    | r :: _ => (true, r, (pop out s).2)
    end.
Proof.
  intros xs s. subst xs s.
  destruct (run_from_init ops) as [Hwf Hsim].
  pose proof (fifo_order ops []) as Ho. rewrite Hsim in *. simpl in Ho.
  set (s := (run ops q_init).2) in *.
  assert (Hpop : pop out s =
    match contents s with
    | [] => (false, out, s)
    | r :: _ => (true, r, (pop out s).2)
    end).
  { destruct (pop_cases out s Hwf) as [[Hc Hp]|(r & Hc & Hp)];
      now rewrite Hc. }
  repeat split; try assumption.
  rewrite Hpop. now destruct (contents s).
Qed.

(** ** Preemption

    An interrupt between two statements of [pop] changes neither the slot
    being read nor the fact that the queue is not empty. *)
Lemma push_keeps_reading (k : ascii) (ts : Z) (s : queue) :
  wf s -> q_tail s <> q_head s ->
  q_tail (isr_push k ts s) = q_tail s /\
  q_tail s <> q_head (isr_push k ts s) /\
  q (isr_push k ts s) !!! Z.to_nat (q_tail s) = q s !!! Z.to_nat (q_tail s).
Proof.
  intros Hwf Hne. rewrite isr_push_unfold by exact Hwf.
  destruct (full s) eqn:Hf; [now repeat split|].
  destruct Hwf as (Hl & Hh & Ht). simpl. conjs.
  - reflexivity.
  - unfold full in Hf. rewrite next_index in Hf by lia.
    apply Z.eqb_neq in Hf. congruence.
  - apply list_lookup_total_insert_ne. lia.
Qed.

Lemma mstep_reading (e : Preempt.mevent) (s : Preempt.mstate) :
  wf (Preempt.mq s) -> Preempt.reading s ->
  wf (Preempt.mq (Preempt.mstep e s).2) /\
  Preempt.reading (Preempt.mstep e s).2.
Proof.
  intros Hwf Hr. destruct s as [qs p]. destruct e as [k ts|out0]; simpl in *.
  - split; [now apply wf_isr_push|].
    unfold Preempt.reading in *. simpl in *.
    destruct p as [|out|out|out]; [exact I| | |].
    + destruct (push_keeps_reading k ts qs Hwf Hr) as (H1 & H2 & H3).
      congruence.
    + destruct Hr as [Hne Hk].
      destruct (push_keeps_reading k ts qs Hwf Hne) as (H1 & H2 & H3).
      rewrite H1, H3. split; [congruence|exact Hk].
    + destruct Hr as [Hne Hk].
      destruct (push_keeps_reading k ts qs Hwf Hne) as (H1 & H2 & H3).
      rewrite H1, H3. split; [congruence|exact Hk].
  - unfold Preempt.reading in *.
    destruct p as [|out|out|out]; simpl in *.
    + destruct (Z.eqb_spec (q_tail qs) (q_head qs)); simpl; now split.
    + split; [exact Hwf|]. now split.
    + destruct Hr as [Hne Hk]. split; [exact Hwf|]. split; [exact Hne|].
      rewrite Hk. now destruct (q qs !!! Z.to_nat (q_tail qs)).
    + split; [|exact I].
      pose proof (wf_pop out qs Hwf) as Hp. rewrite pop_unfold in Hp by exact Hwf.
      destruct Hr as [Hne _]. apply Z.eqb_neq in Hne. rewrite Hne in Hp.
      destruct Hwf as (Hl & Hh & Ht). simpl in Hp.
      rewrite next_index by lia. exact Hp.
Qed.

(** The statement at which a call takes effect does to the queue what the
    whole call does, and returns what it returns; the other statements
    leave the queue alone. *)
Lemma mstep_call (e : Preempt.mevent) (s : Preempt.mstate) :
  wf (Preempt.mq s) -> Preempt.reading s ->
  match (Preempt.mstep e s).1.1, (Preempt.mstep e s).1.2 with
  | Some c, Some y => step c (Preempt.mq s) = (y, Preempt.mq (Preempt.mstep e s).2)
  | None, None => Preempt.mq s = Preempt.mq (Preempt.mstep e s).2
  | _, _ => False
  end.
Proof.
  intros Hwf Hr. destruct s as [qs p]. destruct e as [k ts|out0]; simpl in *.
  - reflexivity.
  - unfold Preempt.reading in Hr. destruct p as [|out|out|out]; simpl in *.
    + destruct (Z.eqb_spec (q_tail qs) (q_head qs)) as [E|E]; simpl;
        [|reflexivity].
      rewrite pop_unfold by exact Hwf.
      apply Z.eqb_eq in E. now rewrite E.
    + reflexivity.
    + reflexivity.
    + rewrite pop_unfold by exact Hwf.
      destruct Hr as [Hne Hout]. apply Z.eqb_neq in Hne. rewrite Hne.
      destruct Hwf as (Hl & Hh & Ht).
      rewrite next_index by lia. now rewrite <- Hout.
Qed.

(** Every preemptive schedule behaves as the sequence of whole calls it
    linearises to: same returned values, same queue. A [pop] that returns
    [true] takes effect at its store to [q_tail], one that returns [false]
    at its test, an [isr_push] where it runs. *)
Lemma preemptive_run_linearises (sched : list Preempt.mevent) :
  forall s, wf (Preempt.mq s) -> Preempt.reading s ->
    let r := Preempt.mrun sched s in
    run r.1.1 (Preempt.mq s) = (r.1.2, Preempt.mq r.2).
Proof.
  induction sched as [|e sched IH]; intros s Hwf Hr; [reflexivity|].
  destruct (mstep_reading e s Hwf Hr) as [Hwf1 Hr1].
  pose proof (mstep_call e s Hwf Hr) as Hcall.
  specialize (IH _ Hwf1 Hr1). cbv zeta in *. simpl Preempt.mrun.
  destruct (Preempt.mstep e s) as [[o x] s1]. cbn [fst snd] in *.
  destruct (Preempt.mrun sched s1) as [[os xs] s2].
  cbn [fst snd] in *.
  destruct o as [c|], x as [y|]; try contradiction; simpl.
  - rewrite Hcall, IH. reflexivity.
  - rewrite Hcall. exact IH.
Qed.

(** The same from the empty queue with the consumer idle; the calls then
    obey the bound of C1 and the order of C8. *)
Lemma preemptive_run_from_boot (sched : list Preempt.mevent) :
  let r := Preempt.mrun sched (Preempt.mkM q_init Preempt.Idle) in
  run r.1.1 q_init = (r.1.2, Preempt.mq r.2).
Proof. apply (preemptive_run_linearises sched); [apply wf_init|exact I]. Qed.

(** A [pop] interrupted three times: the record read is the one that was
    at the tail, and the pushes land behind it. *)
Lemma preemptive_example :
  Preempt.mrun
    [Preempt.Isr "T" 1; Preempt.Main inhabitant; Preempt.Isr "R" 2;
     Preempt.Main inhabitant; Preempt.Isr "T" 3; Preempt.Main inhabitant;
     Preempt.Isr "R" 4; Preempt.Main inhabitant; Preempt.Main inhabitant]
    (Preempt.mkM q_init Preempt.Idle) =
  ([Push "T" 1; Push "R" 2; Push "T" 3; Push "R" 4; Pop],
   [PushDone true; PushDone true; PushDone true; PushDone true;
    PopTrue (mkEventRec "T" 1)],
   Preempt.mkM
     (mkQueue (<[3%nat := mkEventRec "R" 4]>
                (<[2%nat := mkEventRec "T" 3]>
                  (<[1%nat := mkEventRec "R" 2]>
                    (<[0%nat := mkEventRec "T" 1]> (q q_init))))) 4 1)
     (Preempt.Tested inhabitant)).
Proof. vm_compute. reflexivity. Qed.

Lemma mrun_reading (sched : list Preempt.mevent) :
  forall s, wf (Preempt.mq s) -> Preempt.reading s ->
    wf (Preempt.mq (Preempt.mrun sched s).2).
Proof.
  induction sched as [|e sched IH]; intros s Hwf Hr; [exact Hwf|].
  destruct (mstep_reading e s Hwf Hr) as [Hwf1 Hr1].
  specialize (IH _ Hwf1 Hr1). simpl Preempt.mrun.
  destruct (Preempt.mstep e s) as [[o x] s1]. cbn [fst snd] in *.
  destruct (Preempt.mrun sched s1) as [[os xs] s2]. exact IH.
Qed.

(** X1. Whatever the interrupts do between the statements of [pop], since
    boot: the calls return what they return when run one after the other
    in the order in which they take effect; the array [q] keeps its 64
    slots and both indices stay in [0, 64); the records stored are, in
    order, the records handed out followed by the records still queued;
    and at most 63 records are pending. *)
Theorem preemptive_queue_safe (sched : list Preempt.mevent) :
  let r := Preempt.mrun sched (Preempt.mkM q_init Preempt.Idle) in
  let ops := r.1.1 in
  let xs := r.1.2 in
  let s := Preempt.mq r.2 in
  run ops q_init = (xs, s) /\
  Use.in_bounds s = true /\
  accepted ops xs = popped xs ++ contents s /\
  0 <= balance xs <= 63.
Proof.
  intros r ops xs s.
  assert (Hlin : run ops q_init = (xs, s)).
  { apply (preemptive_run_linearises sched); [apply wf_init|exact I]. }
  assert (Hwf : wf s).
  { apply (mrun_reading sched); [apply wf_init|exact I]. }
  destruct (run_from_init ops) as [_ Hsim].
  pose proof (fifo_order ops []) as Ho.
  pose proof (fifo_balance ops []) as Hb.
  rewrite Hsim, Hlin in Ho, Hb. simpl in Ho, Hb.
  pose proof (length_contents s) as Hl. pose proof (pending_range s) as Hp.
  conjs; try assumption; try lia.
  destruct Hwf as (H1 & H2 & H3). unfold Use.in_bounds.
  rewrite H1. simpl.
  repeat (apply andb_true_intro; split);
    try (apply Z.leb_le; lia); try (apply Z.ltb_lt; lia); reflexivity.
Qed.

(** ** Bursts *)

Lemma fifo_run_app (a b : list op) (l : list EventRec) :
  Fifo.fifo_run (a ++ b) l =
    ((Fifo.fifo_run a l).1 ++ (Fifo.fifo_run b (Fifo.fifo_run a l).2).1,
     (Fifo.fifo_run b (Fifo.fifo_run a l).2).2).
Proof.
  revert l. induction a as [|o a IH]; intros l; simpl.
  - now destruct (Fifo.fifo_run b l).
  - destruct (Fifo.fifo_step o l) as [x l1]. rewrite IH.
    destruct (Fifo.fifo_run a l1) as [xs l2]. simpl.
    now destruct (Fifo.fifo_run b l2).
Qed.

Lemma popped_app (xs ys : list obs) :
  popped (xs ++ ys) = popped xs ++ popped ys.
Proof.
  induction xs as [|x xs IH]; simpl; [reflexivity|].
  destruct x; simpl; now rewrite IH.
Qed.

(** A burst fills the bounded queue up to its bound, in order, and hands
    nothing out. *)
Lemma fifo_burst (rs : list EventRec) :
  forall l, (length l <= 63)%nat ->
    popped (Fifo.fifo_run (Use.burst rs) l).1 = [] /\
    (Fifo.fifo_run (Use.burst rs) l).2 = take 63 (l ++ rs).
Proof.
  induction rs as [|r rs IH]; intros l Hl; simpl.
  - split; [reflexivity|]. rewrite app_nil_r. now rewrite take_ge.
  - unfold Fifo.fifo_push, Fifo.capacity.
    replace (mkEventRec (kind r) (dev_ts r)) with r by now destruct r.
    destruct (Nat.ltb_spec (length l) 63) as [Hlt|Hge].
    + destruct (IH (l ++ [r])) as [Hp Hq].
      { rewrite length_app. simpl. lia. }
      destruct (Fifo.fifo_run (Use.burst rs) (l ++ [r])) as [xs l2].
      simpl in *. split; [exact Hp|]. now rewrite Hq, <- app_assoc.
    + destruct (IH l Hl) as [Hp Hq].
      destruct (Fifo.fifo_run (Use.burst rs) l) as [xs l2].
      simpl in *. split; [exact Hp|].
      rewrite Hq. rewrite !take_app_le by lia. reflexivity.
Qed.

(** Enough calls of [pop] hand out the whole queue, in order. *)
Lemma fifo_pops (n : nat) :
  forall l, (length l <= n)%nat ->
    popped (Fifo.fifo_run (Use.pops n) l).1 = l /\
    (Fifo.fifo_run (Use.pops n) l).2 = [].
Proof.
  induction n as [|n IH]; intros l Hl.
  - destruct l; [now split|simpl in Hl; lia].
  - change (Use.pops (S n)) with (Pop :: Use.pops n).
    destruct l as [|r l];
      cbn [Fifo.fifo_run Fifo.fifo_step Fifo.fifo_pop].
    + destruct (IH [] ltac:(simpl; lia)) as [Hp Hq].
      destruct (Fifo.fifo_run (Use.pops n) []) as [xs l2]. now split.
    + destruct (IH l ltac:(simpl in Hl; lia)) as [Hp Hq].
      destruct (Fifo.fifo_run (Use.pops n) l) as [xs l2].
      simpl in *. split; [now rewrite Hp|exact Hq].
Qed.

(** X2. Into an empty ring buffer, wherever its indices stand, a burst of
    records followed by 63 calls of [pop]: the first 63 records of the
    burst come out, in order and unchanged, the later ones are lost, and
    the buffer is empty again. *)
Theorem burst_then_drain (s : queue) (rs : list EventRec) :
  wf s -> contents s = [] ->
  popped (run (Use.burst rs ++ Use.pops 63) s).1 = take 63 rs /\
  contents (run (Use.burst rs ++ Use.pops 63) s).2 = [].
Proof.
  intros Hwf He.
  destruct (run_simulation (Use.burst rs ++ Use.pops 63) s Hwf) as [_ Hsim].
  rewrite He, fifo_run_app in Hsim.
  destruct (fifo_burst rs [] ltac:(simpl; lia)) as [Hp1 Hq1].
  simpl app in Hq1.
  destruct (fifo_pops 63 (Fifo.fifo_run (Use.burst rs) []).2) as [Hp2 Hq2].
  { rewrite Hq1, length_take. lia. }
  pose proof (f_equal fst Hsim) as Hobs.
  pose proof (f_equal snd Hsim) as Hc. cbn [fst snd] in Hobs, Hc.
  rewrite <- Hobs, <- Hc, popped_app, Hp1, Hp2, Hq2, Hq1. now split.
Qed.

(** X2 where the indices wrap: the buffer was used 62 times before, and a
    burst of three records crosses the end of the array. *)
Lemma burst_then_drain_witness :
  let s := (run (Use.burst (replicate 62 (mkEventRec "T" 7)) ++ Use.pops 62)
                q_init).2 in
  let rs := [mkEventRec "T" 1; mkEventRec "R" 2; mkEventRec "T" 3] in
  q_head s = 62 /\ q_tail s = 62 /\
  popped (run (Use.burst rs ++ Use.pops 63) s).1 = rs /\
  q_head (run (Use.burst rs ++ Use.pops 63) s).2 = 1.
Proof.
  intros s rs.
  assert (Hwf : wf s)
    by (vm_compute; repeat split; first [reflexivity | discriminate]).
  assert (He : contents s = []) by reflexivity.
  destruct (burst_then_drain s rs Hwf He) as [Hp _].
  split; [reflexivity|]. split; [reflexivity|].
  split; [exact Hp|reflexivity].
Defined.

(** C8, on a run: three records go in, come out in the same order with
    the same fields, and a fourth [pop] returns [false]. *)
Lemma ring_fifo_example :
  (run [Push "T"%char 11; Push "R"%char 22; Pop; Push "T"%char 33;
        Pop; Pop; Pop] q_init).1 =
  [PushDone true; PushDone true; PopTrue (mkEventRec "T"%char 11);
   PushDone true; PopTrue (mkEventRec "R"%char 22);
   PopTrue (mkEventRec "T"%char 33); PopFalse].
Proof. reflexivity. Qed.

End RingFacts.

(* ===================================================================== *)
(** * Properties of the sketches *)
(* ===================================================================== *)

Module FirmwareFacts.
Import Ring Fmt Firmware RingFacts FmtFacts.
Local Open Scope string_scope.

Lemma bind_ok {A B : Type} (m : M A) (k : A -> M B) (g g1 : globals)
    (a : A) (o1 : list output) :
  m g = Ok a g1 o1 -> bind m k g = prepend o1 (k a g1).
Proof. intros H. unfold bind. now rewrite H. Qed.

(** ** The expansions of the format strings *)

Lemma sprintf_event (b : board) (s : string) (n : Z) :
  sprintf (fmt_event (sketch_of b)) [ArgS s; ArgU n] =
  Some ("role=" ++ role b ++ " evt=" ++ s ++ " dev_ts=" ++ utoa n ++ nl).
Proof. destruct b; reflexivity. Qed.

Lemma sprintf_heartbeat (b : board) (n : Z) :
  sprintf (fmt_heartbeat (sketch_of b)) [ArgU n] = Some (heartbeat_line b n).
Proof. destruct b; reflexivity. Qed.

Lemma sprintf_range (b : board) (n : Z) :
  sprintf (fmt_range (sketch_of b)) [ArgU n] = Some (range_line b n).
Proof. destruct b; reflexivity. Qed.

Lemma sprintf_distance (m : spec_float) :
  sprintf ("Range: %.2f m" ++ nl) [ArgF m] = Some (distance_line m).
Proof. reflexivity. Qed.

Lemma length_role (b : board) : (String.length (role b) <= 6)%nat.
Proof. destruct b; simpl; lia. Qed.

Lemma length_event_line (b : board) (r : EventRec) :
  (0 <= dev_ts r < 2 ^ 64)%Z -> (String.length (event_line b r) < 128)%nat.
Proof.
  intros Hr. unfold event_line.
  assert (Hu : (String.length (utoa (dev_ts r)) <= 20)%nat).
  { apply utoa_length; [|lia]. change (10 ^ Z.of_nat 20)%Z with
      100000000000000000000%Z. lia. }
  pose proof (length_role b).
  rewrite !length_append.
  destruct (Ascii.eqb (kind r) "T"); simpl String.length; lia.
Qed.

Lemma length_heartbeat_line (b : board) (n : Z) :
  (0 <= n < 2 ^ 32)%Z -> (String.length (heartbeat_line b n) < 64)%nat.
Proof.
  intros Hn. unfold heartbeat_line.
  assert (Hu : (String.length (utoa n) <= 10)%nat).
  { apply utoa_length; [|lia]. change (10 ^ Z.of_nat 10)%Z with
      10000000000%Z. lia. }
  pose proof (length_role b).
  rewrite !length_append. simpl String.length. lia.
Qed.

Lemma length_range_line (b : board) (n : Z) :
  (0 <= n < 2 ^ 32)%Z -> (String.length (range_line b n) < 96)%nat.
Proof.
  intros Hn. unfold range_line.
  assert (Hu : (String.length (utoa n) <= 10)%nat).
  { apply utoa_length; [|lia]. change (10 ^ Z.of_nat 10)%Z with
      10000000000%Z. lia. }
  pose proof (length_role b).
  rewrite !length_append. simpl String.length. lia.
Qed.

Lemma round_scaled_range (n e : Z) :
  (0 <= n)%Z -> (e <= 104)%Z ->
  (0 <= round_scaled n e <= n * 2 ^ 104 + 1)%Z.
Proof.
  intros Hn He. unfold round_scaled.
  assert (H104 : (1 <= 2 ^ 104)%Z) by (vm_compute; discriminate).
  destruct (Z.leb_spec 0 e) as [Hpos|Hneg].
  - assert (Hp : (0 < 2 ^ e)%Z) by (apply Z.pow_pos_nonneg; lia).
    assert (Hm : (2 ^ e <= 2 ^ 104)%Z) by (apply Z.pow_le_mono_r; lia).
    nia.
  - set (d := (2 ^ (- e))%Z).
    assert (Hd : (0 < d)%Z) by (apply Z.pow_pos_nonneg; lia).
    assert (Hq : (0 <= n / d <= n)%Z).
    { split; [apply Z.div_pos; lia|].
      apply Z.div_le_upper_bound; [lia|nia]. }
    cbv zeta.
    destruct (_ <? _)%Z; [nia|].
    destruct (_ <? _)%Z; [nia|].
    destruct (Z.even _); nia.
Qed.

Lemma length_ftoa2 (f : spec_float) :
  is_float32 f = true -> (String.length (ftoa2 f) <= 43)%nat.
Proof.
  intros Hf. destruct f as [s|s| |s m e]; simpl ftoa2.
  - destruct s; simpl; lia.
  - destruct s; simpl; lia.
  - simpl; lia.
  - apply float32_bounds in Hf. destruct Hf as [Hm He].
    pose proof (round_scaled_range (Z.pos m * 100) e ltac:(lia) He) as Hr.
    set (h := round_scaled (Z.pos m * 100) e) in *.
    assert (Hu : (String.length (utoa (h / 100)) <= 39)%nat).
    { apply utoa_length; [|lia].
      change (10 ^ Z.of_nat 39)%Z with
        1000000000000000000000000000000000000000%Z.
      change (2 ^ 24)%Z with 16777216%Z in Hm.
      change (2 ^ 104)%Z with 20282409603651670423947251286016%Z in Hr.
      Z.div_mod_to_equations. lia. }
    unfold fixed2. rewrite !length_append.
    destruct s; simpl String.length; lia.
Qed.

Lemma length_distance_line (m : spec_float) :
  is_float32 m = true -> (String.length (distance_line m) < 64)%nat.
Proof.
  intros Hm. pose proof (length_ftoa2 m Hm).
  unfold distance_line. rewrite !length_append. simpl String.length. lia.
Qed.

(** ** The library calls, when the text fits the buffer *)

Lemma send_n {B : Type} (size : nat) (fmt : string) (args : list arg)
    (s : string) (sock : socket) (port : Z) (k : M B) (g : globals) :
  sprintf fmt args = Some s -> (String.length s < size)%nat ->
  (bn <- c_snprintf size fmt args ;; udp_send sock port bn.1 bn.2 ;;; k) g =
  prepend [UdpPacket sock HOST_IP port s] (k g).
Proof.
  intros Hs Hl. unfold bind at 1. unfold c_snprintf.
  rewrite (snprintf_fits _ _ _ _ Hs Hl). simpl.
  unfold bind, udp_send. change (Z.of_nat (String.length s)) with (strlen s).
  rewrite read_bytes_all. simpl. now destruct (k g).
Qed.

Lemma send_strlen {B : Type} (size : nat) (fmt : string) (args : list arg)
    (s : string) (sock : socket) (port : Z) (k : M B) (g : globals) :
  sprintf fmt args = Some s ->
  (bn <- c_snprintf size fmt args ;;
   udp_send sock port bn.1 (strlen bn.1) ;;; k) g =
  prepend [UdpPacket sock HOST_IP port (substring 0 (size - 1) s)] (k g).
Proof.
  intros Hs. unfold bind at 1. unfold c_snprintf, snprintf. rewrite Hs. simpl.
  unfold bind, udp_send. rewrite read_bytes_all. simpl. now destruct (k g).
Qed.

Lemma send_n_last (size : nat) (fmt : string) (args : list arg)
    (s : string) (sock : socket) (port : Z) (g : globals) :
  sprintf fmt args = Some s -> (String.length s < size)%nat ->
  (bn <- c_snprintf size fmt args ;; udp_send sock port bn.1 bn.2) g =
  Ok tt g [UdpPacket sock HOST_IP port s].
Proof.
  intros Hs Hl. unfold bind, c_snprintf.
  rewrite (snprintf_fits _ _ _ _ Hs Hl). simpl.
  unfold udp_send. change (Z.of_nat (String.length s)) with (strlen s).
  now rewrite read_bytes_all.
Qed.

Lemma send_strlen_last (size : nat) (fmt : string) (args : list arg)
    (s : string) (sock : socket) (port : Z) (g : globals) :
  sprintf fmt args = Some s ->
  (bn <- c_snprintf size fmt args ;; udp_send sock port bn.1 (strlen bn.1)) g =
  Ok tt g [UdpPacket sock HOST_IP port (substring 0 (size - 1) s)].
Proof.
  intros Hs. unfold bind, c_snprintf, snprintf. rewrite Hs. simpl.
  unfold udp_send. now rewrite read_bytes_all.
Qed.

(** ** [heartbeat] *)

Lemma ulong_range (z : Z) : (0 <= ulong z < 2 ^ 32)%Z.
Proof. unfold ulong. apply Z.mod_pos_bound. reflexivity. Qed.

Lemma seconds_range (z : Z) : (0 <= ulong z / 1000 < 2 ^ 32)%Z.
Proof. pose proof (ulong_range z). Z.div_mod_to_equations. lia. Qed.

Lemma heartbeat_spec (b : board) (millis : Z) (g : globals) :
  heartbeat (sketch_of b) millis g =
    if (HEARTBEAT_MS <=? ulong (ulong millis - last_hb g))%Z
    then Ok tt (mkGlobals (gq g) (ulong millis))
           [UdpPacket UWB_EVT HOST_IP EVT_PORT
              (heartbeat_line b (ulong millis / 1000))]
    else Ok tt g [].
Proof.
  unfold heartbeat.
  rewrite (bind_ok _ _ g g (last_hb g) []) by reflexivity.
  destruct (_ <=? _)%Z; [|reflexivity].
  rewrite (bind_ok _ _ g (mkGlobals (gq g) (ulong millis)) tt [])
    by reflexivity.
  rewrite (send_strlen_last _ _ _ _ _ _ _ (sprintf_heartbeat b _)).
  rewrite substring_all; [reflexivity|].
  pose proof (length_heartbeat_line b _ (seconds_range millis)). lia.
Qed.

(** ** [drain_iter] *)

Lemma drain_iter_spec (b : board) (r0 : EventRec) (g : globals) :
  inv g ->
  drain_iter (sketch_of b) r0 g =
    match contents (gq g) with
    | [] => Ok (false, r0) g []
    | r :: _ =>
        Ok (true, r) (mkGlobals (pop r0 (gq g)).2 (last_hb g))
           [event_packet b r]
    end.
Proof.
  intros [Hwf Hty]. unfold drain_iter.
  destruct (pop_cases r0 (gq g) Hwf) as [[Hc Hp]|(r & Hc & Hp)].
  - rewrite (bind_ok _ _ g g (false, r0) []).
    + rewrite Hc. reflexivity.
    + unfold call_pop. rewrite Hp. now destruct g.
  - rewrite (bind_ok _ _ g (mkGlobals (pop r0 (gq g)).2 (last_hb g))
               (true, r) []).
    + rewrite Hc in *. apply Forall_cons in Hty as [Hr _].
      cbn [fst snd prepend app].
      rewrite (send_n _ _ _ _ _ _ _ _ (sprintf_event b _ _)
                 (length_event_line b r Hr)).
      reflexivity.
    + unfold call_pop. destruct (pop r0 (gq g)) as [[b' r'] q'].
      now inversion Hp.
Qed.

(** ** [newRange] *)

Lemma newRange_null (sk : sketch) (millis : Z) (g : globals) :
  newRange sk None millis g = Ok tt g [].
Proof. reflexivity. Qed.

Lemma newRange_some_gen (b : board) (en : bool) (d : DW1000Device)
    (millis : Z) (g : globals) :
  newRange (with_udp_range en b) (Some d) millis g =
  Ok tt g
    (serial_report d ++
     [UdpPacket UWB_EVT HOST_IP EVT_PORT (range_line b (ulong millis / 1000))] ++
     if en
     then [UdpPacket UWB_UDP HOST_IP HOST_PORT
             (substring 0 63 (distance_line (getRange d)))]
     else [])%list.
Proof.
  unfold newRange. cbn [is_null].
  do 10 (erewrite bind_ok by reflexivity; cbn [prepend]).
  cbn [with_udp_range fmt_range ENABLE_UDP_RANGE].
  rewrite (send_strlen _ _ _ _ _ _ _ _ (sprintf_range b _)).
  rewrite substring_all
    by (pose proof (length_range_line b _ (seconds_range millis)); lia).
  destruct en.
  - rewrite (send_strlen_last _ _ _ _ _ _ _ (sprintf_distance _)).
    reflexivity.
  - reflexivity.
Qed.

Lemma sketch_of_with (b : board) :
  sketch_of b = with_udp_range (ENABLE_UDP_RANGE (sketch_of b)) b.
Proof. now destruct b. Qed.

Lemma newRange_some (b : board) (d : DW1000Device) (millis : Z)
    (g : globals) :
  newRange (sketch_of b) (Some d) millis g =
  Ok tt g
    (serial_report d ++
     [UdpPacket UWB_EVT HOST_IP EVT_PORT (range_line b (ulong millis / 1000))] ++
     if ENABLE_UDP_RANGE (sketch_of b)
     then [UdpPacket UWB_UDP HOST_IP HOST_PORT
             (substring 0 63 (distance_line (getRange d)))]
     else [])%list.
Proof. rewrite (sketch_of_with b) at 1. apply newRange_some_gen. Qed.

Lemma newRange_plot_null (g : globals) : newRange_plot None g = Ok tt g [].
Proof. reflexivity. Qed.

Lemma newRange_plot_some (d : DW1000Device) (g : globals) :
  is_float32 (getRange d) = true ->
  newRange_plot (Some d) g =
  Ok tt g
    (serial_report d ++
     [UdpPacket UWB_UDP HOST_IP HOST_PORT (distance_line (getRange d))])%list.
Proof.
  intros Hf. unfold newRange_plot. cbn [is_null].
  do 10 (erewrite bind_ok by reflexivity; cbn [prepend]).
  rewrite (send_n_last _ _ _ _ _ _ _ (sprintf_distance _)
             (length_distance_line _ Hf)).
  reflexivity.
Qed.

(** ** Histories *)

Lemma inv_boot : inv boot.
Proof. split; [apply wf_init|]. change (Forall typed []). constructor. Qed.

Lemma inv_push (k : ascii) (t : Z) (g : globals) :
  inv g -> inv (mkGlobals (isr_push k (ulonglong t) (gq g)) (last_hb g)).
Proof.
  intros [Hwf Hty]. split; simpl.
  - now apply wf_isr_push.
  - destruct (full (gq g)) eqn:Hf.
    + now rewrite isr_push_unfold, Hf.
    + rewrite contents_push by assumption.
      apply Forall_app. split; [exact Hty|].
      constructor; [|constructor]. unfold typed, ulonglong. simpl.
      apply Z.mod_pos_bound. reflexivity.
Qed.

Lemma handle_drain (b : board) (g : globals) :
  inv g ->
  exists g1 o x,
    handle (sketch_of b) DrainIter g = Ok tt g1 o /\
    inv g1 /\
    step Pop (gq g) = (x, gq g1) /\
    o = map (event_packet b) (popped [x]) /\
    Forall typed (popped [x]).
Proof.
  intros Hinv. pose proof Hinv as [Hwf Hty].
  cbn [handle]. unfold bind. rewrite drain_iter_spec by exact Hinv.
  unfold step.
  destruct (pop_cases inhabitant (gq g) Hwf) as [[Hc Hp]|(r & Hc & Hp)].
  - rewrite Hc. exists g, [], PopFalse. rewrite Hp. simpl.
    conjs; try reflexivity; try assumption. constructor.
  - rewrite Hc in *. apply Forall_cons in Hty as [Hr Hrest].
    exists (mkGlobals (pop inhabitant (gq g)).2 (last_hb g)),
           [event_packet b r], (PopTrue r).
    rewrite Hp. simpl. conjs; try reflexivity.
    + split; simpl; [now apply wf_pop|exact Hrest].
    + constructor; [exact Hr|constructor].
Qed.

Lemma handle_quiet (b : board) (ev : event) (g : globals) :
  match ev with
  | HeartbeatCheck _ | RangeDone _ _ => True
  | _ => False
  end ->
  exists g1 o,
    handle (sketch_of b) ev g = Ok tt g1 o /\ gq g1 = gq g.
Proof.
  destruct ev as [t|t| |millis|dev millis]; try contradiction; intros _.
  - cbn [handle]. rewrite heartbeat_spec.
    destruct (_ <=? _)%Z; eexists _, _; split; reflexivity.
  - cbn [handle]. destruct dev as [d|].
    + rewrite newRange_some. eexists _, _; split; reflexivity.
    + eexists _, _; split; reflexivity.
Qed.

Lemma run_events_spec (b : board) (evs : list event) :
  forall g, inv g ->
    exists g' os out,
      run_events (sketch_of b) evs g = Ok os g' out /\
      inv g' /\
      gq g' = (run (ring_ops evs) (gq g)).2 /\
      drain_outputs evs os =
        map (event_packet b) (popped (run (ring_ops evs) (gq g)).1) /\
      Forall typed (popped (run (ring_ops evs) (gq g)).1).
Proof.
  induction evs as [|ev evs IH]; intros g Hinv.
  - exists g, [], []. simpl. conjs; try reflexivity; try assumption.
    constructor.
  - destruct ev as [t|t| |millis|dev millis].
    + destruct (IH _ (inv_push "T" t g Hinv)) as (g' & os & out & Hr & Hi & Hq & Hd & Ht).
      exists g', ([] :: os), out. simpl in *.
      unfold on_tx_done, call_isr_push, get_tx_ts. rewrite Hr.
      destruct (run (ring_ops evs) _) as [xs s2]. simpl in *.
      conjs; try reflexivity; assumption.
    + destruct (IH _ (inv_push "R" t g Hinv)) as (g' & os & out & Hr & Hi & Hq & Hd & Ht).
      exists g', ([] :: os), out. simpl in *.
      unfold on_rx_done, call_isr_push, get_rx_ts. rewrite Hr.
      destruct (run (ring_ops evs) _) as [xs s2]. simpl in *.
      conjs; try reflexivity; assumption.
    + destruct (handle_drain b g Hinv) as (g1 & o & x & Hh & Hi1 & Hs & Ho & Hx).
      destruct (IH g1 Hi1) as (g' & os & out & Hr & Hi & Hq & Hd & Ht).
      exists g', (o :: os), (o ++ out)%list.
      cbn [run_events ring_ops drain_outputs run]. rewrite Hh, Hr, Hs.
      destruct (run (ring_ops evs) (gq g1)) as [xs s2]. simpl in *.
      conjs; try reflexivity; try assumption.
      * rewrite Hd, Ho. now destruct x.
      * destruct x; try assumption. simpl in *.
        apply Forall_cons in Hx as [Hx _]. now constructor.
    + destruct (handle_quiet b (HeartbeatCheck millis) g I)
        as (g1 & o & Hh & Hg).
      assert (Hi1 : inv g1) by (unfold inv; now rewrite Hg).
      destruct (IH g1 Hi1) as (g' & os & out & Hr & Hi & Hq & Hd & Ht).
      exists g', (o :: os), (o ++ out)%list.
      cbn [run_events ring_ops drain_outputs]. rewrite Hh, Hr, <- Hg.
      conjs; try reflexivity; assumption.
    + destruct (handle_quiet b (RangeDone dev millis) g I)
        as (g1 & o & Hh & Hg).
      assert (Hi1 : inv g1) by (unfold inv; now rewrite Hg).
      destruct (IH g1 Hi1) as (g' & os & out & Hr & Hi & Hq & Hd & Ht).
      exists g', (o :: os), (o ++ out)%list.
      cbn [run_events ring_ops drain_outputs]. rewrite Hh, Hr, <- Hg.
      conjs; try reflexivity; assumption.
Qed.

(** ** The records are lines *)

Lemma role_line_chars (b : board) : all_chars line_char (role b) = true.
Proof. now destruct b. Qed.

Lemma is_line_event (b : board) (r : EventRec) :
  (0 <= dev_ts r)%Z -> is_line (event_line b r) = true.
Proof.
  intros Hr. unfold event_line.
  rewrite <- !append_assoc. apply is_line_append_nl.
  rewrite !all_chars_append, role_line_chars, utoa_line_chars by exact Hr.
  now destruct (Ascii.eqb (kind r) "T").
Qed.

Lemma is_line_heartbeat (b : board) (n : Z) :
  (0 <= n)%Z -> is_line (heartbeat_line b n) = true.
Proof.
  intros Hn. unfold heartbeat_line.
  rewrite <- !append_assoc. apply is_line_append_nl.
  now rewrite !all_chars_append, role_line_chars, utoa_line_chars.
Qed.

Lemma is_line_range (b : board) (n : Z) :
  (0 <= n)%Z -> is_line (range_line b n) = true.
Proof.
  intros Hn. unfold range_line.
  rewrite <- !append_assoc. apply is_line_append_nl.
  now rewrite !all_chars_append, role_line_chars, utoa_line_chars.
Qed.

Lemma digit_is_line_char (d : Z) :
  (0 <= d <= 9)%Z -> line_char (digit d) = true.
Proof. intros Hd. apply digit_line_char. now apply is_digit_digit. Qed.

Lemma ftoa2_line_chars (f : spec_float) :
  all_chars line_char (ftoa2 f) = true.
Proof.
  destruct f as [s|s| |s m e]; simpl ftoa2; try (now destruct s);
    try reflexivity.
  assert (Hh : (0 <= round_scaled (Z.pos m * 100) e)%Z).
  { unfold round_scaled.
    destruct (Z.leb_spec 0 e).
    - assert (0 < 2 ^ e)%Z by (apply Z.pow_pos_nonneg; lia). nia.
    - assert (Hd : (0 < 2 ^ (- e))%Z) by (apply Z.pow_pos_nonneg; lia).
      assert (0 <= Z.pos m * 100 / 2 ^ (- e))%Z by (apply Z.div_pos; lia).
      cbv zeta. destruct (_ <? _)%Z; [lia|].
      destruct (_ <? _)%Z; [lia|]. destruct (Z.even _); lia. }
  set (h := round_scaled (Z.pos m * 100) e) in *.
  unfold fixed2. rewrite !all_chars_append.
  rewrite utoa_line_chars by (apply Z.div_pos; lia).
  simpl all_chars.
  rewrite !digit_is_line_char by (Z.div_mod_to_equations; lia).
  now destruct s.
Qed.

Lemma is_line_distance (m : spec_float) : is_line (distance_line m) = true.
Proof.
  unfold distance_line. rewrite <- !append_assoc. apply is_line_append_nl.
  now rewrite !all_chars_append, ftoa2_line_chars.
Qed.

(** The two decimals are the nearest ones. *)
Lemma round_scaled_nearest (n e : Z) :
  (0 <= n)%Z ->
  let h := round_scaled n e in
  if (0 <=? e)%Z then h = (n * 2 ^ e)%Z
  else (Z.abs (2 * n - 2 * h * 2 ^ (- e)) <= 2 ^ (- e))%Z.
Proof.
  intros Hn h. subst h. unfold round_scaled.
  destruct (Z.leb_spec 0 e) as [Hpos|Hneg]; [reflexivity|].
  set (d := (2 ^ (- e))%Z).
  assert (Hd : (0 < d)%Z) by (apply Z.pow_pos_nonneg; lia).
  pose proof (Z.div_mod n d ltac:(lia)) as Hdm.
  pose proof (Z.mod_pos_bound n d Hd) as Hr.
  cbv zeta.
  destruct (Z.ltb_spec (2 * (n mod d)) d); [nia|].
  destruct (Z.ltb_spec d (2 * (n mod d))); [nia|].
  destruct (Z.even _); nia.
Qed.

(** ** An uninterrupted drain loop *)

Lemma drain_all (b : board) (fuel : nat) :
  forall (r0 : EventRec) (g : globals),
    inv g -> (length (contents (gq g)) < fuel)%nat ->
    exists g',
      drain (sketch_of b) fuel r0 g =
        Ok tt g' (map (event_packet b) (contents (gq g))) /\
      inv g' /\ contents (gq g') = [] /\ last_hb g' = last_hb g.
Proof.
  induction fuel as [|fuel IH]; intros r0 g Hinv Hlen; [lia|].
  pose proof Hinv as [Hwf Hty].
  cbn [drain]. unfold bind. rewrite drain_iter_spec by exact Hinv.
  destruct (pop_cases r0 (gq g) Hwf) as [[Hc Hp]|(r & Hc & Hp)].
  - rewrite Hc. exists g. simpl. conjs; try reflexivity; assumption.
  - rewrite Hc in *. apply Forall_cons in Hty as [Hr Hrest].
    cbn [fst snd].
    assert (Hinv1 : inv (mkGlobals (pop r0 (gq g)).2 (last_hb g))).
    { split; simpl; [now apply wf_pop|exact Hrest]. }
    destruct (IH r _ Hinv1) as (g' & Hd & Hi & He & Hl).
    { simpl in *. lia. }
    exists g'. rewrite Hd. simpl. conjs; try reflexivity; assumption.
Qed.

(** A whole [loop()] that is not interrupted: the queued records go out,
    then the heartbeat check runs; 64 iterations are enough. *)
Lemma loop_runs (b : board) (millis : Z) (g : globals) :
  inv g ->
  exists g0 g1 hb,
    drain (sketch_of b) 64 inhabitant g =
      Ok tt g0 (map (event_packet b) (contents (gq g))) /\
    heartbeat (sketch_of b) millis g0 = Ok tt g1 hb /\
    loop (sketch_of b) 64 millis g =
      Ok tt g1 (map (event_packet b) (contents (gq g)) ++ hb)%list /\
    contents (gq g1) = [].
Proof.
  intros Hinv.
  destruct (drain_all b 64 inhabitant g Hinv) as (g0 & Hd & _ & He & _).
  { destruct Hinv as [Hw _]. pose proof (length_contents (gq g)).
    pose proof (pending_range (gq g)). lia. }
  assert (Hhb : exists g1 hb,
            heartbeat (sketch_of b) millis g0 = Ok tt g1 hb /\
            gq g1 = gq g0).
  { rewrite heartbeat_spec. destruct (_ <=? _)%Z; eauto. }
  destruct Hhb as (g1 & hb & Hh & Hq).
  exists g0, g1, hb. conjs; try assumption.
  - unfold loop. rewrite (bind_ok _ _ _ _ _ _ Hd), Hh. reflexivity.
  - now rewrite Hq.
Qed.

(** ** The wire records *)

(** C2. Over any history of interrupts, drain-loop iterations, heartbeat
    checks and range callbacks since boot, nothing faults, and the drain
    loop has sent, in order, one packet to the event port for each record
    handed out by [pop]; those records are the first of the records the
    interrupt handlers stored, with the kind and the time stamp given at
    [isr_push]. Each payload is
    ["role=<ROLE> evt=<KIND> dev_ts=<N>\n"] with [ROLE] the role of the
    board, [KIND = TX] exactly when the kind is ['T'] and [RX] otherwise,
    and [N] the decimal numeral of the time stamp; it is one
    newline-terminated line that fits the 128-byte buffer. A drain loop
    that is not interrupted sends the lines of all queued records and
    leaves the queue empty. *)
Theorem drain_emits_event_records (b : board) (evs : list event)
    (r0 : EventRec) :
  exists g os out,
    run_events (sketch_of b) evs boot = Ok os g out /\
    let xs := (run (ring_ops evs) q_init).1 in
    drain_outputs evs os = map (event_packet b) (popped xs) /\
    accepted (ring_ops evs) xs = (popped xs ++ contents (gq g))%list /\
    Forall (fun r =>
      event_packet b r =
        UdpPacket UWB_EVT HOST_IP EVT_PORT
          ("role=" ++ role b ++ " evt=" ++
           (if Ascii.eqb (kind r) "T" then "TX" else "RX") ++
           " dev_ts=" ++ utoa (dev_ts r) ++ nl) /\
      is_line (event_line b r) = true /\
      (String.length (event_line b r) < 128)%nat /\
      atou (utoa (dev_ts r)) = dev_ts r /\
      all_chars is_digit (utoa (dev_ts r)) = true)
      (popped xs ++ contents (gq g))%list /\
    exists g',
      drain (sketch_of b) 64 r0 g =
        Ok tt g' (map (event_packet b) (contents (gq g))) /\
      contents (gq g') = [].
Proof.
  destruct (run_events_spec b evs boot inv_boot)
    as (g & os & out & Hr & Hi & Hq & Hd & Ht).
  exists g, os, out. split; [exact Hr|]. cbv zeta.
  destruct (run_from_init (ring_ops evs)) as [Hwf Hsim].
  pose proof (fifo_order (ring_ops evs) []) as Ho.
  rewrite Hsim in Ho. simpl in Ho. simpl gq in Hq. rewrite <- Hq in Ho.
  conjs.
  - exact Hd.
  - exact Ho.
  - destruct Hi as [_ Hc].
    assert (Hall : Forall typed
              (popped (run (ring_ops evs) q_init).1 ++ contents (gq g))%list)
      by (apply Forall_app; split; assumption).
    eapply Forall_impl; [exact Hall|].
    intros r Hrt. unfold typed in Hrt. conjs.
    + reflexivity.
    + apply is_line_event. lia.
    + now apply length_event_line.
    + apply atou_utoa. lia.
    + apply utoa_digits. lia.
  - destruct (drain_all b 64 r0 g Hi) as (g' & Hdr & _ & He & _).
    + destruct Hi as [Hw _]. pose proof (length_contents (gq g)).
      pose proof (pending_range (gq g)). lia.
    + exists g'. now split.
Qed.

(** C2, on a run of the TAG sketch: two interrupts, then the loop. *)
Lemma event_records_example :
  run_events tag_sketch
    [IrqSent 1099511627775; IrqReceived 42; DrainIter; DrainIter; DrainIter]
    boot =
  Ok [[]; [];
      [UdpPacket UWB_EVT HOST_IP EVT_PORT
         ("role=TAG evt=TX dev_ts=1099511627775" ++ nl)];
      [UdpPacket UWB_EVT HOST_IP EVT_PORT ("role=TAG evt=RX dev_ts=42" ++ nl)];
      []]
     (mkGlobals (mkQueue (<[1%nat := mkEventRec "R" 42]>
                           (<[0%nat := mkEventRec "T" 1099511627775]> (q q_init)))
                         2 2) 0)
     [UdpPacket UWB_EVT HOST_IP EVT_PORT
        ("role=TAG evt=TX dev_ts=1099511627775" ++ nl);
      UdpPacket UWB_EVT HOST_IP EVT_PORT ("role=TAG evt=RX dev_ts=42" ++ nl)].
Proof. vm_compute. reflexivity. Qed.

(** C3, as stated, does not hold: two seconds after boot the TAG sketch
    sends a heartbeat with [host_ts=2]. *)
Lemma heartbeat_host_ts_not_zero :
  ~ (forall (b : board) (millis : Z) (g g' : globals) (p : string),
       heartbeat (sketch_of b) millis g =
         Ok tt g' [UdpPacket UWB_EVT HOST_IP EVT_PORT p] ->
       p = "role=" ++ role b ++ " evt=HEARTBEAT host_ts=0" ++ nl).
Proof.
  intros H.
  specialize (H TAG 2000%Z boot (mkGlobals q_init 2000)
                ("role=TAG evt=HEARTBEAT host_ts=2" ++ nl) eq_refl).
  discriminate H.
Qed.

(** C3, amended. The heartbeat check sends a record when at least
    [HEARTBEAT_MS] milliseconds (modulo 2^32) passed since the last one,
    and nothing otherwise; the record is
    ["role=<ROLE> evt=HEARTBEAT host_ts=<N>\n"] where [N] is the decimal
    numeral of [millis() / 1000], the whole seconds of the millisecond
    clock, and [last_hb] becomes the clock value. The record is one
    newline-terminated line. *)
Theorem heartbeat_record (b : board) (millis : Z) (g : globals) :
  heartbeat (sketch_of b) millis g =
    (if (HEARTBEAT_MS <=? (ulong millis - last_hb g) mod 2 ^ 32)%Z
     then Ok tt (mkGlobals (gq g) (ulong millis))
            [UdpPacket UWB_EVT HOST_IP EVT_PORT
               ("role=" ++ role b ++ " evt=HEARTBEAT host_ts=" ++
                utoa (ulong millis / 1000) ++ nl)]
     else Ok tt g []) /\
  is_line (heartbeat_line b (ulong millis / 1000)) = true /\
  atou (utoa (ulong millis / 1000)) = (ulong millis / 1000)%Z /\
  (ulong millis / 1000 =? 0)%Z = (ulong millis <? 1000)%Z.
Proof.
  pose proof (seconds_range millis) as Hs.
  conjs.
  - apply heartbeat_spec.
  - apply is_line_heartbeat. lia.
  - apply atou_utoa. lia.
  - pose proof (ulong_range millis).
    destruct (Z.eqb_spec (ulong millis / 1000) 0),
             (Z.ltb_spec (ulong millis) 1000); try reflexivity;
      exfalso; Z.div_mod_to_equations; lia.
Qed.

(** C6. With a distant device, [newRange] does not fault, leaves the
    globals as they are, and sends through the event socket exactly one
    packet, to the event port, with payload
    ["role=<ROLE> evt=RANGE host_ts=<N>\n"], [N] being the decimal numeral
    of [millis() / 1000], a whole number of seconds below 2^64. *)
Theorem newRange_emits_range_record (b : board) (d : DW1000Device)
    (millis : Z) (g : globals) :
  let sec := (ulong millis / 1000)%Z in
  exists out,
    newRange (sketch_of b) (Some d) millis g = Ok tt g out /\
    sent_on UWB_EVT out =
      [(EVT_PORT,
        "role=" ++ role b ++ " evt=RANGE host_ts=" ++ utoa sec ++ nl)] /\
    is_line (range_line b sec) = true /\
    (String.length (range_line b sec) < 96)%nat /\
    (0 <= sec < 2 ^ 64)%Z /\
    atou (utoa sec) = sec /\
    all_chars is_digit (utoa sec) = true.
Proof.
  intros sec. pose proof (seconds_range millis) as Hs. fold sec in Hs.
  eexists. split; [apply newRange_some|]. conjs.
  - unfold sent_on, serial_report. simpl flat_map.
    now destruct (ENABLE_UDP_RANGE (sketch_of b)).
  - apply is_line_range. lia.
  - now apply length_range_line.
  - lia.
  - lia.
  - apply atou_utoa. lia.
  - apply utoa_digits. lia.
Qed.

(** C6, on a run of the ANCHOR sketch, 12.345 s after boot. *)
Lemma range_record_example :
  newRange anchor_sketch (Some peer) 12345 boot =
  Ok tt boot
    (serial_report peer ++
     [UdpPacket UWB_EVT HOST_IP EVT_PORT
        ("role=ANCHOR evt=RANGE host_ts=12" ++ nl)])%list.
Proof. vm_compute. reflexivity. Qed.



(** C7, the other values [%.2f] can meet. *)
Lemma ftoa2_examples :
  ftoa2 (S754_finite false 9395241 (-24)) = "0.56" /\
  ftoa2 (S754_finite true 14685307 (-18)) = "-56.02" /\
  ftoa2 (S754_finite false 1 (-3)) = "0.12" /\
  ftoa2 (S754_finite false 3 (-3)) = "0.38" /\
  ftoa2 (S754_finite false 16777215 104) =
    "340282346638528859811704183484516925440.00" /\
  ftoa2 (S754_zero true) = "-0.00" /\
  ftoa2 S754_nan = "nan".
Proof. vm_compute. repeat split; reflexivity. Qed.

(** C10. When [getDistantDevice()] is null, [newRange] of the three
    UDP-sending sketches returns at once: no output, globals untouched, no
    fault; and for no pointer at all do they dereference null. *)
Theorem newRange_null_returns (b : board) (en : bool) (millis : Z)
    (g : globals) (dev : option DW1000Device) :
  newRange_plot None g = Ok tt g [] /\
  newRange (sketch_of b) None millis g = Ok tt g [] /\
  newRange (with_udp_range en b) None millis g = Ok tt g [] /\
  newRange_plot dev g <> Fault NullDereference /\
  newRange (sketch_of b) dev millis g <> Fault NullDereference /\
  newRange (with_udp_range en b) dev millis g <> Fault NullDereference.
Proof.
  conjs; try reflexivity.
  - destruct dev as [d|]; [|discriminate].
    unfold newRange_plot. cbn [is_null].
    do 10 (erewrite bind_ok by reflexivity; cbn [prepend]).
    unfold bind, c_snprintf, snprintf. rewrite sprintf_distance.
    cbn [ret prepend fst snd]. unfold udp_send.
    destruct (read_bytes _ _); discriminate.
  - destruct dev as [d|]; [|discriminate].
    now rewrite newRange_some.
  - destruct dev as [d|]; [|discriminate].
    now rewrite newRange_some_gen.
Qed.

(** C10, by contrast: the serial-only sketches use the pointer as it
    comes. *)
Lemma newRange_serial_null (g : globals) :
  newRange_serial None g = Fault NullDereference.
Proof. reflexivity. Qed.

(** ** The heartbeat timer and the main loop *)

(** The unsigned subtraction [now - last_hb] measures the time passed,
    whatever the two clock values are. *)
Lemma elapsed_wraps (l d : Z) :
  (0 <= d < 2 ^ 32)%Z -> ulong (ulong (l + d) - l) = d.
Proof.
  intros Hd. unfold ulong.
  rewrite Zminus_mod_idemp_l.
  replace (l + d - l)%Z with d by lia.
  apply Z.mod_small. exact Hd.
Qed.

(** X3. The heartbeat timer measures elapsed time across the wrap-around
    of the 32-bit millisecond clock: a check made [d] milliseconds (below
    2^32) after the last heartbeat sends nothing and changes nothing when
    [d < HEARTBEAT_MS], and otherwise sends one heartbeat record and
    restarts the timer at the current clock value; where the clock stands,
    and whether it wrapped in between, plays no part. *)
Theorem heartbeat_cadence (b : board) (g : globals) (d : Z) :
  (0 <= d < 2 ^ 32)%Z ->
  heartbeat (sketch_of b) (last_hb g + d) g =
    if (d <? HEARTBEAT_MS)%Z then Ok tt g []
    else Ok tt (mkGlobals (gq g) (ulong (last_hb g + d)))
           [UdpPacket UWB_EVT HOST_IP EVT_PORT
              (heartbeat_line b (ulong (last_hb g + d) / 1000))].
Proof.
  intros Hd. rewrite heartbeat_spec, elapsed_wraps by exact Hd.
  destruct (Z.leb_spec HEARTBEAT_MS d), (Z.ltb_spec d HEARTBEAT_MS);
    try reflexivity; lia.
Qed.

(** X3 at a clock about to wrap: the last heartbeat went out 1000 ms before
    the wrap, the check comes 1500 ms after it. *)
Lemma heartbeat_cadence_witness :
  heartbeat tag_sketch (4294966296 + 2500) (mkGlobals q_init 4294966296) =
    Ok tt (mkGlobals q_init 1500)
      [UdpPacket UWB_EVT HOST_IP EVT_PORT
         ("role=TAG evt=HEARTBEAT host_ts=1" ++ nl)].
Proof.
  exact (heartbeat_cadence TAG (mkGlobals q_init 4294966296) 2500
           ltac:(vm_compute; split; [discriminate|reflexivity])).
Defined.

Lemma drain_empty (b : board) (fuel : nat) (r0 : EventRec) (g : globals) :
  inv g -> contents (gq g) = [] ->
  drain (sketch_of b) (S fuel) r0 g = Ok tt g [].
Proof.
  intros Hinv Hc. cbn [drain]. unfold bind.
  rewrite drain_iter_spec by exact Hinv. rewrite Hc. reflexivity.
Qed.


(** ** Callbacks that do not touch the queue *)

Lemma ring_ops_ring_only (evs : list event) :
  ring_ops (Use.ring_only evs) = ring_ops evs.
Proof.
  induction evs as [|[t|t| |millis|dev millis] evs IH]; simpl;
    now rewrite ?IH.
Qed.

(** X5. Heartbeat checks and range callbacks stay out of the way of event
    reporting: taking them out of any history since boot leaves the ring
    buffer and the event packets sent by the drain loop exactly as they
    were. *)
Theorem callbacks_leave_events_alone (b : board) (evs : list event) :
  exists os g out os' g' out',
    run_events (sketch_of b) evs boot = Ok os g out /\
    run_events (sketch_of b) (Use.ring_only evs) boot = Ok os' g' out' /\
    gq g' = gq g /\
    drain_outputs (Use.ring_only evs) os' = drain_outputs evs os.
Proof.
  destruct (run_events_spec b evs boot inv_boot)
    as (g & os & out & Hr & _ & Hq & Hd & _).
  destruct (run_events_spec b (Use.ring_only evs) boot inv_boot)
    as (g' & os' & out' & Hr' & _ & Hq' & Hd' & _).
  rewrite ring_ops_ring_only in Hq', Hd'.
  exists os, g, out, os', g', out'. conjs; try assumption.
  - now rewrite Hq, Hq'.
  - now rewrite Hd, Hd'.
Qed.

(** ** From one pass of the loop to the next *)

Lemma loop_pass (b : board) (millis : Z) (g : globals) :
  inv g ->
  exists g1 hb,
    loop (sketch_of b) 64 millis g =
      Ok tt g1 (map (event_packet b) (contents (gq g)) ++ hb)%list /\
    inv g1 /\ contents (gq g1) = [] /\ (length hb <= 1)%nat.
Proof.
  intros Hi.
  assert (Hlen : (length (contents (gq g)) < 64)%nat).
  { pose proof (length_contents (gq g)). pose proof (pending_range (gq g)).
    lia. }
  destruct (drain_all b 64 inhabitant g Hi Hlen) as (g0 & Hd & Hi0 & He & _).
  unfold loop. rewrite (bind_ok _ _ _ _ _ _ Hd), heartbeat_spec.
  destruct (_ <=? _)%Z; eexists _, _; (split; [reflexivity|]).
  - conjs; [destruct Hi0; now split|exact He|simpl; lia].
  - conjs; [exact Hi0|exact He|simpl; lia].
Qed.

Lemma ring_ops_no_drain (evs : list event) :
  Use.no_drain evs = true -> ring_ops evs = Use.burst (Use.irq_records evs).
Proof.
  induction evs as [|[t|t| |millis|dev millis] evs IH]; simpl; intros H;
    try discriminate; try (now rewrite IH); reflexivity.
Qed.



(** ** Telling the records apart *)

Lemma append_cancel (p a b : string) : p ++ a = p ++ b -> a = b.
Proof.
  induction p as [|c p IH]; simpl; intros H; [exact H|].
  injection H as H. now apply IH.
Qed.

Lemma numeral_cancel (n n' : Z) :
  (0 <= n)%Z -> (0 <= n')%Z -> utoa n ++ nl = utoa n' ++ nl -> n = n'.
Proof.
  intros Hn Hn' H.
  apply (f_equal (fun s => atou_loop s 0)) in H.
  rewrite !atou_loop_append in H.
  change (atou_loop (utoa n) 0) with (atou (utoa n)) in H.
  change (atou_loop (utoa n') 0) with (atou (utoa n')) in H.
  rewrite !atou_utoa in H by assumption.
  unfold nl in H. cbn [atou_loop] in H. lia.
Qed.

(** X6. The wire records can be told apart and read back: an event line
    determines the role of the board, whether the event was a TX or an RX,
    and the time stamp (an [unsigned long long]); and no event line is a
    heartbeat or range line of any board, nor a heartbeat line a range
    line. *)
Theorem event_line_injective (b b' : board) (r r' : EventRec)
    (n n' : Z) :
  typed r -> typed r' ->
  (event_line b r = event_line b' r' ->
   b = b' /\
   Ascii.eqb (kind r) "T" = Ascii.eqb (kind r') "T" /\
   dev_ts r = dev_ts r') /\
  event_line b r <> heartbeat_line b' n /\
  event_line b r <> range_line b' n /\
  heartbeat_line b n <> range_line b' n'.
Proof.
  intros Hr Hr'. unfold typed in *.
  unfold event_line, heartbeat_line, range_line.
  conjs.
  - intros H.
    assert (Hb : b = b').
    { destruct b, b'; try reflexivity; exfalso;
        cbn [append role] in H; discriminate H. }
    subst b'. split; [reflexivity|].
    do 3 apply append_cancel in H.
    assert (Hk : Ascii.eqb (kind r) "T" = Ascii.eqb (kind r') "T").
    { destruct (Ascii.eqb (kind r) "T"), (Ascii.eqb (kind r') "T");
        try reflexivity; cbn [append] in H; discriminate H. }
    split; [exact Hk|].
    rewrite Hk in H. do 2 apply append_cancel in H.
    apply numeral_cancel in H; lia.
  - destruct b, b', (Ascii.eqb (kind r) "T"); cbn [append role];
      intros H; discriminate H.
  - destruct b, b', (Ascii.eqb (kind r) "T"); cbn [append role];
      intros H; discriminate H.
  - destruct b, b'; cbn [append role]; intros H; discriminate H.
Qed.

(** X6 on two records of the TAG sketch. *)
Lemma event_line_injective_witness :
  (event_line TAG (mkEventRec "T" 42) = event_line TAG (mkEventRec "T" 42) ->
   TAG = TAG /\
   Ascii.eqb "T" "T" = Ascii.eqb "T" "T" /\
   42%Z = 42%Z) /\
  event_line TAG (mkEventRec "T" 42) <> heartbeat_line TAG 7 /\
  event_line TAG (mkEventRec "T" 42) <> range_line TAG 7 /\
  heartbeat_line TAG 7 <> range_line TAG 9.
Proof.
  exact (event_line_injective TAG TAG (mkEventRec "T" 42) (mkEventRec "T" 42)
           7 9
           ltac:(vm_compute; split; [discriminate|reflexivity])
           ltac:(vm_compute; split; [discriminate|reflexivity])).
Defined.

End FirmwareFacts.

(* ===================================================================== *)
(** * Properties of the Pairer *)
(* ===================================================================== *)

Module PairerFacts.
Import Pairer.

Lemma Qle_bool_false (x y : Q) : Qle_bool x y = false -> (y < x)%Q.
Proof.
  intros H. apply Qnot_le_lt. intros Hle.
  apply Qle_bool_iff in Hle. congruence.
Qed.

Lemma qualifies_bounds (cfg : Config) (t : Q) (p : PendingTX) :
  qualifies cfg t p = true ->
  (0 <= lat t p)%Q /\ (lat t p <= horizon cfg)%Q.
Proof.
  unfold qualifies. rewrite andb_true_iff, !Qle_bool_iff. tauto.
Qed.

(** ** The scan *)

Section Select.
Variables (cfg : Config) (t : Q).

(** Once a best candidate is held, one is returned. *)
Lemma select_keeps (l : list PendingTX) :
  forall i x, exists y, select cfg t l i (Some x) = Some y.
Proof.
  induction l as [|p l IH]; intros i [j0 c0]; simpl; [eauto|].
  destruct (qualifies cfg t p); [|apply IH].
  destruct (Qle_bool _ _); apply IH.
Qed.

(** A qualifying entry makes the scan return a winner. *)
Lemma select_finds (l : list PendingTX) :
  forall i cur k c,
    l !! k = Some c -> qualifies cfg t c = true ->
    exists y, select cfg t l i cur = Some y.
Proof.
  induction l as [|p l IH]; intros i cur k c Hk Hq; [discriminate|].
  destruct k as [|k]; simpl in *.
  - inversion Hk; subst p. rewrite Hq.
    destruct cur as [[j0 c0]|]; [|apply select_keeps].
    destruct (Qle_bool _ _); apply select_keeps.
  - eapply IH; eassumption.
Qed.

(** The winner qualifies, sits where the scan says, is at least as near
    as the best held before and as every qualifying entry, and on equal
    latency comes first. *)
Lemma select_spec (l : list PendingTX) :
  forall i cur j w,
    select cfg t l i cur = Some (j, w) ->
    (forall j0 c0, cur = Some (j0, c0) ->
       (j0 < i)%nat /\ qualifies cfg t c0 = true) ->
    qualifies cfg t w = true /\
    (cur = Some (j, w) \/ exists k, j = (i + k)%nat /\ l !! k = Some w) /\
    (forall j0 c0, cur = Some (j0, c0) ->
       (lat t w <= lat t c0)%Q /\ ((lat t c0 == lat t w)%Q -> j = j0)) /\
    (forall k c, l !! k = Some c -> qualifies cfg t c = true ->
       (lat t w <= lat t c)%Q /\
       ((lat t c == lat t w)%Q -> (j <= i + k)%nat)).
Proof.
  induction l as [|p l IH]; intros i cur j w Hsel Hcur.
  - simpl in Hsel. subst cur. destruct (Hcur j w eq_refl) as [_ Hq].
    repeat split; auto; try discriminate.
    + inversion H; subst. apply Qle_refl.
    + inversion H; subst. reflexivity.
  - simpl in Hsel.
    set (cur' := if qualifies cfg t p then
                   match cur with
                   | None => Some (i, p)
                   | Some (_, c) =>
                       if Qle_bool (lat t c) (lat t p) then cur
                       else Some (i, p)
                   end
                 else cur) in *.
    assert (Hcases :
      (qualifies cfg t p = false /\ cur' = cur) \/
      (exists j0 c0, cur = Some (j0, c0) /\ cur' = cur /\
                     (lat t c0 <= lat t p)%Q) \/
      (cur' = Some (i, p) /\ qualifies cfg t p = true /\
       forall j0 c0, cur = Some (j0, c0) -> (lat t p < lat t c0)%Q)).
    { subst cur'. destruct (qualifies cfg t p) eqn:Hq; [|now left].
      right. destruct cur as [[j0 c0]|].
      - destruct (Qle_bool (lat t c0) (lat t p)) eqn:Hle.
        + left. exists j0, c0. apply Qle_bool_iff in Hle. now repeat split.
        + right. repeat split; auto. intros j1 c1 E. inversion E; subst.
          now apply Qle_bool_false.
      - right. repeat split; auto. discriminate. }
    assert (Hcur' : forall j0 c0, cur' = Some (j0, c0) ->
                      (j0 < S i)%nat /\ qualifies cfg t c0 = true).
    { intros j0 c0 E.
      destruct Hcases as [[_ Hc]|[(j1 & c1 & _ & Hc & _)|(Hc & Hq & _)]].
      - rewrite Hc in E. destruct (Hcur j0 c0 E). split; [lia|assumption].
      - rewrite Hc in E. destruct (Hcur j0 c0 E). split; [lia|assumption].
      - rewrite Hc in E. inversion E; subst. split; [lia|assumption]. }
    destruct (IH (S i) cur' j w Hsel Hcur') as (Hqw & Hpos & Hbest & Hall).
    split; [exact Hqw|]. split; [|split].
    + destruct Hpos as [E|(k & -> & Hk)].
      * destruct Hcases as [[_ Hc]|[(j1 & c1 & _ & Hc & _)|(Hc & _)]].
        -- left. congruence.
        -- left. congruence.
        -- right. exists 0%nat. rewrite Hc in E. inversion E; subst.
           split; [lia|reflexivity].
      * right. exists (S k). split; [lia|exact Hk].
    + intros j0 c0 E.
      destruct Hcases as [[_ Hc]|[(j1 & c1 & _ & Hc & _)|(Hc & Hq & Hlt)]].
      * apply Hbest. congruence.
      * apply Hbest. congruence.
      * destruct (Hbest i p Hc) as [Hle _].
        specialize (Hlt j0 c0 E). split; [lra|]. intros Heq. lra.
    + intros k c Hk Hq. destruct k as [|k]; simpl in Hk.
      * inversion Hk; subst c.
        destruct Hcases as [[Hn _]|[(j0 & c0 & E & Hc & Hle)|(Hc & _ & _)]].
        -- congruence.
        -- (* the held candidate stayed: it is at least as near as [p] *)
           rewrite E in Hc.
           destruct (Hbest j0 c0 Hc) as [Hw Htie].
           destruct (Hcur j0 c0 E) as [Hj0 _].
           split; [lra|]. intros Heq.
           assert (Hj : j = j0) by (apply Htie; lra). lia.
        -- destruct (Hbest i p Hc) as [Hw Htie].
           split; [exact Hw|]. intros Heq. specialize (Htie Heq). lia.
      * destruct (Hall k c Hk Hq) as [Hw Htie].
        split; [exact Hw|]. intros Heq. specialize (Htie Heq). lia.
Qed.

Lemma winner_spec (l : list PendingTX) (j : nat) (w : PendingTX) :
  winner cfg t l = Some (j, w) ->
  l !! j = Some w /\ qualifies cfg t w = true /\
  forall k c, l !! k = Some c -> qualifies cfg t c = true ->
    (lat t w <= lat t c)%Q /\ ((lat t c == lat t w)%Q -> (j <= k)%nat).
Proof.
  intros H. unfold winner in H.
  destruct (select_spec l 0 None j w H) as (Hq & Hpos & _ & Hall);
    [discriminate|].
  destruct Hpos as [E|(k & -> & Hk)]; [discriminate|].
  split; [exact Hk|]. split; [exact Hq|].
  intros k' c' Hk' Hq'. apply (Hall k' c'); assumption.
Qed.

End Select.

(** ** One event *)

Lemma Forall_filter_keep {A : Type} (P : A -> Prop) (f : A -> bool)
    (l : list A) :
  Forall P l -> Forall P (List.filter f l).
Proof.
  induction 1 as [|x l Hx Hl IH]; simpl; [constructor|].
  destruct (f x); [constructor|]; assumption.
Qed.

Lemma pending_ok_all (cfg : Config) (st : State) (r : Role) :
  state_ok cfg st -> Forall (pending_ok r) (pending_of st r).
Proof. intros (Ht & Ha & _). now destruct r. Qed.

Lemma on_tx_links (cfg : Config) (st : State) (ev : Event) :
  links (on_tx cfg st ev) = links st.
Proof. unfold on_tx, sweep. now destruct (role ev). Qed.

Lemma on_tx_ok (cfg : Config) (st : State) (ev : Event) :
  kind ev = TX -> state_ok cfg st -> state_ok cfg (on_tx cfg st ev).
Proof.
  intros Hk (Ht & Ha & Hl).
  assert (Hp : pending_ok (role ev)
                 (mkPending (role ev) (host_timestamp ev)
                    (host_timestamp ev + horizon cfg)%Q ev))
    by (repeat split; assumption).
  assert (Hone : forall l, Forall (pending_ok (role ev)) l ->
            Forall (pending_ok (role ev))
              (l ++ [mkPending (role ev) (host_timestamp ev)
                       (host_timestamp ev + horizon cfg)%Q ev])).
  { intros l Hall. apply Forall_app. split; [exact Hall|].
    constructor; [exact Hp|constructor]. }
  unfold on_tx, sweep. destruct (role ev) eqn:Hr; simpl.
  - split; [|split]; [| |exact Hl]; apply Forall_filter_keep;
      [now apply Hone|exact Ha].
  - split; [|split]; [| |exact Hl]; apply Forall_filter_keep;
      [exact Ht|now apply Hone].
Qed.

Lemma on_rx_winner (cfg : Config) (st : State) (ev : Event) (j : nat)
    (w : PendingTX) :
  winner cfg (host_timestamp ev) (pending_of st (opposite (role ev))) =
    Some (j, w) ->
  links (on_rx cfg st ev) =
    links st ++ [mkLink (ptx_event w) ev (lat (host_timestamp ev) w)] /\
  pending_of (on_rx cfg st ev) (opposite (role ev)) =
    delete j (pending_of st (opposite (role ev))) /\
  pending_of (on_rx cfg st ev) (role ev) = pending_of st (role ev) /\
  unmatched_rx (on_rx cfg st ev) = unmatched_rx st.
Proof.
  intros Hw. unfold on_rx. rewrite Hw.
  destruct (role ev); simpl; repeat split; reflexivity.
Qed.

Lemma on_rx_none (cfg : Config) (st : State) (ev : Event) :
  winner cfg (host_timestamp ev) (pending_of st (opposite (role ev))) = None ->
  links (on_rx cfg st ev) = links st /\
  pending_tag (on_rx cfg st ev) = pending_tag st /\
  pending_anchor (on_rx cfg st ev) = pending_anchor st /\
  unmatched_rx (on_rx cfg st ev) = S (unmatched_rx st).
Proof. intros Hw. unfold on_rx. rewrite Hw. repeat split; reflexivity. Qed.

Lemma on_rx_ok (cfg : Config) (st : State) (ev : Event) :
  kind ev = RX -> state_ok cfg st -> state_ok cfg (on_rx cfg st ev).
Proof.
  intros Hk Hok. pose proof Hok as (Ht & Ha & Hl).
  destruct (winner cfg (host_timestamp ev) (pending_of st (opposite (role ev))))
    as [[j w]|] eqn:Hw.
  - destruct (winner_spec _ _ _ _ _ Hw) as (Hj & Hq & _).
    destruct (qualifies_bounds _ _ _ Hq) as [H0 Hh].
    pose proof (pending_ok_all cfg st (opposite (role ev)) Hok) as Hall.
    assert (Hpw : pending_ok (opposite (role ev)) w).
    { eapply Forall_lookup_1; [exact Hall|exact Hj]. }
    destruct Hpw as (_ & Hrole & Hkind & Hts).
    assert (Hlink : link_ok cfg
              (mkLink (ptx_event w) ev (lat (host_timestamp ev) w))).
    { unfold link_ok; simpl. repeat split; try assumption.
      unfold lat. rewrite Hts. reflexivity. }
    assert (Hlinks : Forall (link_ok cfg)
              (links st ++
               [mkLink (ptx_event w) ev (lat (host_timestamp ev) w)])).
    { apply Forall_app. split; [exact Hl|].
      constructor; [exact Hlink|constructor]. }
    unfold on_rx. rewrite Hw.
    destruct (role ev); simpl in *; (split; [|split]);
      try exact Hlinks; try exact Ht; try exact Ha;
      now apply Forall_delete.
  - unfold on_rx. rewrite Hw. split; [|split]; assumption.
Qed.

Lemma on_range_links (cfg : Config) (st : State) (ev : Event) :
  links (on_range cfg st ev) = links st /\
  pending_tag (on_range cfg st ev) = pending_tag st /\
  pending_anchor (on_range cfg st ev) = pending_anchor st.
Proof. unfold on_range. destruct (existsb _ _); repeat split. Qed.

Lemma step_ok (cfg : Config) (st : State) (ev : Event) :
  state_ok cfg st -> state_ok cfg (on_event cfg st ev).
Proof.
  intros Hok. unfold on_event. destruct (kind ev) eqn:Hk.
  - now apply on_tx_ok.
  - now apply on_rx_ok.
  - destruct (on_range_links cfg st ev) as (H1 & H2 & H3).
    unfold state_ok. rewrite H1, H2, H3. exact Hok.
  - exact Hok.
Qed.

(** Links are only ever appended. *)
Lemma step_appends (cfg : Config) (st : State) (ev : Event) :
  exists new, links (on_event cfg st ev) = links st ++ new.
Proof.
  unfold on_event. destruct (kind ev).
  - exists []. now rewrite on_tx_links, app_nil_r.
  - destruct (winner cfg (host_timestamp ev)
                (pending_of st (opposite (role ev)))) as [[j w]|] eqn:Hw.
    + destruct (on_rx_winner _ _ _ _ _ Hw) as (H & _). eauto.
    + destruct (on_rx_none _ _ _ Hw) as (H & _).
      exists []. now rewrite H, app_nil_r.
  - destruct (on_range_links cfg st ev) as (H & _).
    exists []. now rewrite H, app_nil_r.
  - exists []. now rewrite app_nil_r.
Qed.

Lemma run_ok (cfg : Config) (evs : list Event) :
  forall st, state_ok cfg st -> state_ok cfg (feed cfg evs st).
Proof.
  induction evs as [|ev evs IH]; intros st Hok; simpl; [exact Hok|].
  apply IH. now apply step_ok.
Qed.

Lemma run_appends (cfg : Config) (evs : list Event) :
  forall st, exists new, links (feed cfg evs st) = links st ++ new.
Proof.
  induction evs as [|ev evs IH]; intros st; simpl.
  - exists []. now rewrite app_nil_r.
  - destruct (IH (on_event cfg st ev)) as (n2 & H2).
    destruct (step_appends cfg st ev) as (n1 & H1).
    exists (n1 ++ n2). now rewrite H2, H1, app_assoc.
Qed.

Lemma empty_ok (cfg : Config) : state_ok cfg empty.
Proof. repeat split; constructor. Qed.

(** C4. Whatever events the Pairer is fed, every link it holds has
    [latency = rx.host_timestamp - tx.host_timestamp] with
    [0 <= latency <= horizon] (and joins a TX with an RX of the opposite
    role); links are never changed or dropped: after more events the
    links held before are still there, in place, followed by the new
    ones. *)
Theorem links_within_horizon (cfg : Config) (evs more : list Event) :
  Forall (fun l =>
            (latency l ==
               host_timestamp (rx_event l) - host_timestamp (tx_event l))%Q /\
            (0 <= latency l)%Q /\ (latency l <= horizon cfg)%Q /\
            kind (tx_event l) = TX /\ kind (rx_event l) = RX /\
            role (tx_event l) = opposite (role (rx_event l)))
         (links (feed cfg evs empty)) /\
  exists new,
    links (feed cfg (evs ++ more) empty) = links (feed cfg evs empty) ++ new.
Proof.
  split.
  - apply (run_ok cfg evs empty (empty_ok cfg)).
  - unfold feed. rewrite fold_left_app. apply run_appends.
Qed.

(** C4, scenarios 1 and 2 of the specification: an RX 0.050 s after the
    TX is paired, one 0.450 s after is not. *)
Lemma horizon_scenarios :
  links (feed cfg3 [tx_a; mkEvent ANCHOR RX None (50 # 1000) 2] empty) =
    [mkLink tx_a (mkEvent ANCHOR RX None (50 # 1000) 2) ((50 # 1000) - 0)] /\
  links (feed cfg3 [tx_a; mkEvent ANCHOR RX None (450 # 1000) 2] empty) = [] /\
  unmatched_rx (feed cfg3 [tx_a; mkEvent ANCHOR RX None (450 # 1000) 2] empty)
    = 1%nat.
Proof. repeat split; reflexivity. Qed.



(** C5, ties: of two TX with the same host time stamp the one enqueued
    first is linked. *)
Lemma rx_tie_example :
  links (feed cfg3 [tx_a; mkEvent TAG TX None 0 2;
                   mkEvent ANCHOR RX None (5 # 1000) 3] empty) =
  [mkLink tx_a (mkEvent ANCHOR RX None (5 # 1000) 3) ((5 # 1000) - 0)].
Proof. reflexivity. Qed.

End PairerFacts.

(* ===================================================================== *)
(** * Properties of the AES-GCM functions *)
(* ===================================================================== *)

Module CryptoFacts.
Import Mbedtls Crypto.

(** ** The model against the published test vectors *)

(** FIPS 197, appendices B and C.1. *)
Lemma aes128_vectors :
  Aes.encrypt_block (hex 16 0x000102030405060708090a0b0c0d0e0f)
                    (hex 16 0x00112233445566778899aabbccddeeff) =
    hex 16 0x69c4e0d86a7b0430d8cdb78070b4c55a /\
  Aes.encrypt_block (hex 16 0x2b7e151628aed2a6abf7158809cf4f3c)
                    (hex 16 0x3243f6a8885a308d313198a2e0370734) =
    hex 16 0x3925841d02dc09fbdc118597196a0b32.
Proof. vm_compute. split; reflexivity. Qed.

(** The GCM specification of McGrew and Viega, test cases 1 to 3. *)
Lemma gcm_vectors :
  aesGcmEncrypt (hex 16 0) (hex 12 0) [] 0 =
    (0, [], hex 16 0x58e2fccefa7e3061367f1d57a4e7455a) /\
  aesGcmEncrypt (hex 16 0) (hex 12 0) (hex 16 0) 16 =
    (0, hex 16 0x0388dace60b6a392f328c2b971b2fe78,
        hex 16 0xab6e47d42cec13bdf53a67b21257bddf) /\
  aesGcmEncrypt (hex 16 0xfeffe9928665731c6d6a8f9467308308)
                (hex 12 0xcafebabefacedbaddecaf888)
                (hex 64 0xd9313225f88406e5a55909c5aff5269a86a7a9531534f7da2e4c303d8a318a721c3c0c95956809532fcf0e2449a6b525b16aedf5aa0de657ba637b391aafd255)
                64 =
    (0, hex 64 0x42831ec2217774244b7221b784d0d49ce3aa212f2c02a4e035c17e2329aca12e21d514b25466931c7d8f6a5aac84aa051ba30b396a0aac973d58e091473f5985,
        hex 16 0x4d5c2af327cd64a62cf35abd2ba6fab4).
Proof. vm_compute. repeat split; reflexivity. Qed.

(** ** Counter mode *)

Lemma length_Z_to_be (n : nat) (z : Z) : length (Z_to_be n z) = n.
Proof.
  revert z. induction n as [|n IH]; intros z; simpl; [reflexivity|].
  rewrite length_app, IH. simpl. lia.
Qed.

Lemma length_keystream (key : list Z) (n : nat) (cb : Z) :
  length (keystream key n cb) = (16 * n)%nat.
Proof.
  revert cb. induction n as [|n IH]; intros cb; cbn [keystream];
    [reflexivity|].
  rewrite length_app, length_Z_to_be, IH. lia.
Qed.

Lemma keystream_covers (key : list Z) (icb : Z) (n : nat) :
  (n <= length (keystream key ((n + 15) / 16) icb))%nat.
Proof.
  rewrite length_keystream.
  pose proof (Nat.div_mod_eq (n + 15) 16) as Hd.
  pose proof (Nat.mod_upper_bound (n + 15) 16 ltac:(lia)). lia.
Qed.

Lemma length_gctr (key : list Z) (icb : Z) (data : list Z) :
  length (gctr key icb data) = length data.
Proof.
  unfold gctr. rewrite length_zip_with.
  pose proof (keystream_covers key icb (length data)). lia.
Qed.

Lemma xor_twice (d ks : list Z) :
  (length d <= length ks)%nat ->
  zip_with Z.lxor (zip_with Z.lxor d ks) ks = d.
Proof.
  revert ks. induction d as [|x d IH]; intros [|k ks] Hlen; simpl in *;
    try reflexivity; try lia.
  rewrite IH by lia. f_equal.
  now rewrite Z.lxor_assoc, Z.lxor_nilpotent, Z.lxor_0_r.
Qed.

(** Encrypting twice with the same counter gives the data back. *)
Lemma gctr_involutive (key : list Z) (icb : Z) (data : list Z) :
  gctr key icb (gctr key icb data) = data.
Proof.
  unfold gctr at 1. rewrite length_gctr. unfold gctr.
  apply xor_twice. apply keystream_covers.
Qed.

(** ** The tag comparison *)

Lemma tag_diff_same (t : list Z) (acc : Z) :
  fold_left Z.lor (zip_with Z.lxor t t) acc = acc.
Proof.
  revert acc. induction t as [|x t IH]; intros acc; simpl; [reflexivity|].
  now rewrite Z.lxor_nilpotent, Z.lor_0_r.
Qed.

Lemma length_gcm_tag (ctx : mbedtls_gcm_context) (iv add c : list Z) :
  length (gcm_tag ctx iv add c 16) = 16%nat.
Proof. unfold gcm_tag. rewrite length_take, length_Z_to_be. reflexivity. Qed.

(** ** The library calls on the arguments the sketch passes *)

Lemma setkey_128 (key : list Z) :
  mbedtls_gcm_setkey mbedtls_gcm_init MBEDTLS_CIPHER_ID_AES key
    (AES_KEY_LEN * 8) =
  (0, mkCtx (take 16 key) (E (take 16 key) 0)).
Proof. reflexivity. Qed.

Lemma crypt_and_tag_ok (ctx : mbedtls_gcm_context) (mode : gcm_mode)
    (iv input : list Z) :
  (length input <= 128)%nat ->
  mbedtls_gcm_crypt_and_tag ctx mode (Z.of_nat (length input))
    iv AES_IV_LEN [] 0 input AES_TAG_LEN =
  let output :=
    gctr (cipher_key ctx) (inc32 (j0 (hash_key ctx) (take 12 iv))) input in
  (0, output,
   gcm_tag ctx (take 12 iv) []
     (match mode with
      | MBEDTLS_GCM_ENCRYPT => output
      | MBEDTLS_GCM_DECRYPT => input
      end) 16).
Proof.
  intros Hlen. unfold mbedtls_gcm_crypt_and_tag.
  change (AES_IV_LEN =? 0) with false. change (AES_TAG_LEN <? 4) with false.
  change (16 <? AES_TAG_LEN) with false.
  destruct (Z.ltb_spec (Z.of_nat (length input)) 0); [lia|].
  destruct (Z.ltb_spec 68719476704 (Z.of_nat (length input))); [lia|].
  cbn [orb]. rewrite Nat2Z.id, firstn_all.
  reflexivity.
Qed.

(** C9. For a 16-byte key, a 12-byte IV and a plaintext of at most 128
    bytes: when [aesGcmEncrypt] returns 0 with a ciphertext and a tag,
    [aesGcmDecrypt] with the same key, IV and tag on that ciphertext
    returns 0 and the plaintext, byte for byte. The ciphertext is as long
    as the plaintext and the tag has 16 bytes. *)
Theorem aes_gcm_roundtrip (key iv plaintext ciphertext tag : list Z) :
  length key = 16%nat ->
  length iv = 12%nat ->
  (length plaintext <= 128)%nat ->
  aesGcmEncrypt key iv plaintext (Z.of_nat (length plaintext)) =
    (0, ciphertext, tag) ->
  aesGcmDecrypt key iv tag ciphertext (Z.of_nat (length ciphertext)) =
    (0, plaintext) /\
  length ciphertext = length plaintext /\
  length tag = 16%nat.
Proof.
  intros Hkey Hiv Hlen Henc.
  unfold aesGcmEncrypt in Henc. rewrite setkey_128 in Henc.
  cbn [negb Z.eqb] in Henc.
  rewrite crypt_and_tag_ok in Henc by exact Hlen.
  cbv zeta in Henc.
  set (ctx := mkCtx (take 16 key) (E (take 16 key) 0)) in *.
  set (icb := inc32 (j0 (hash_key ctx) (take 12 iv))) in *.
  injection Henc as Hc Ht. subst ciphertext tag.
  assert (Hcl : length (gctr (cipher_key ctx) icb plaintext) =
                length plaintext) by apply length_gctr.
  split; [|split; [exact Hcl|apply length_gcm_tag]].
  unfold aesGcmDecrypt. rewrite setkey_128. cbn [negb Z.eqb].
  fold ctx. unfold mbedtls_gcm_auth_decrypt.
  rewrite crypt_and_tag_ok by (rewrite length_gctr; exact Hlen).
  cbv zeta. cbn [negb Z.eqb]. fold icb.
  change (Z.to_nat AES_TAG_LEN) with 16%nat.
  rewrite firstn_all2 by (rewrite length_gcm_tag; lia).
  rewrite tag_diff_same. cbn [negb Z.eqb].
  now rewrite gctr_involutive.
Qed.

(** C9 on the key of the sketch and the line ["7D00,1.234\n"]. *)
Lemma aes_gcm_roundtrip_witness :
  let iv := hex 12 0xcafebabefacedbaddecaf888 in
  let plaintext := [55; 68; 48; 48; 44; 49; 46; 50; 51; 52; 10] in
  exists ciphertext tag,
    aesGcmEncrypt AES_KEY iv plaintext 11 = (0, ciphertext, tag) /\
    aesGcmDecrypt AES_KEY iv tag ciphertext 11 = (0, plaintext).
Proof.
  intros iv plaintext.
  destruct (aesGcmEncrypt AES_KEY iv plaintext 11) as [[ret c] t] eqn:Henc.
  assert (Hret : ret = 0).
  { apply (f_equal (fun x => fst (fst x))) in Henc.
    vm_compute in Henc. congruence. }
  subst ret. exists c, t. split; [reflexivity|].
  destruct (aes_gcm_roundtrip AES_KEY iv plaintext c t
              eq_refl eq_refl ltac:(vm_compute; lia) Henc)
    as (Hdec & Hcl & _).
  rewrite Hcl in Hdec. exact Hdec.
Defined.

(** C9, the other way round: a tag with one bit flipped is refused and
    the output is zeroed. *)
Lemma aes_gcm_bad_tag :
  aesGcmDecrypt (hex 16 0) (hex 12 0)
    (hex 16 0xab6e47d42cec13bdf53a67b21257bdde)
    (hex 16 0x0388dace60b6a392f328c2b971b2fe78) 16 =
  (MBEDTLS_ERR_GCM_AUTH_FAILED, hex 16 0).
Proof. vm_compute. reflexivity. Qed.

End CryptoFacts.

(* ===================================================================== *)
(** * Properties of the AES-GCM sketch *)
(* ===================================================================== *)

Module EncFacts.
Import Fmt Firmware Mbedtls Crypto EncSketch FmtFacts FirmwareFacts CryptoFacts.

(** ** [generateRandomIV] *)

Lemma memcpy_word_S (buf : list Z) (i r : Z) (m : nat) :
  memcpy_word buf i r (Z.of_nat (S m)) =
    <[Z.to_nat (i + Z.of_nat m) := byte_of r (Z.of_nat m)]>
      (memcpy_word buf i r (Z.of_nat m)).
Proof.
  unfold memcpy_word. rewrite !Nat2Z.id, seq_S, fold_left_app. reflexivity.
Qed.

Lemma memcpy_word_spec (buf : list Z) (i r : Z) (m : nat) :
  0 <= i -> (Z.to_nat i + m <= length buf)%nat ->
  length (memcpy_word buf i r (Z.of_nat m)) = length buf /\
  forall p : nat,
    memcpy_word buf i r (Z.of_nat m) !! p =
      if decide (i <= Z.of_nat p < i + Z.of_nat m)
      then Some (byte_of r (Z.of_nat p - i)) else buf !! p.
Proof.
  intros Hi. induction m as [|m IH]; intros Hlen.
  - split; [reflexivity|]. intros p. destruct (decide _); [lia|reflexivity].
  - destruct IH as [IHl IHp]; [lia|]. rewrite memcpy_word_S.
    split; [now rewrite length_insert|]. intros p.
    destruct (decide (p = Z.to_nat (i + Z.of_nat m))) as [->|Hne].
    + rewrite list_lookup_insert_eq by lia.
      destruct (decide _); [|lia]. do 2 f_equal. lia.
    + rewrite list_lookup_insert_ne by congruence. rewrite IHp.
      repeat destruct (decide _); try reflexivity; lia.
Qed.

Lemma generateRandomIV_loop_spec (rnd : Z -> Z) (N : Z) (fuel : nat) :
  forall (i k : Z) (buf : list Z),
    0 <= i -> N <= Z.of_nat (length buf) -> N - i <= 4 * Z.of_nat fuel ->
    let r := generateRandomIV_loop fuel rnd N i k buf in
    length r.1 = length buf /\
    r.2 = k + (Z.max 0 (N - i) + 3) / 4 /\
    forall p : nat,
      r.1 !! p =
        if decide (i <= Z.of_nat p < N)
        then Some (byte_of (uint32 (rnd (k + (Z.of_nat p - i) / 4)))
                           ((Z.of_nat p - i) mod 4))
        else buf !! p.
Proof.
  induction fuel as [|fuel IH]; intros i k buf Hi HN Hf; cbn [generateRandomIV_loop].
  - cbn [fst snd]. conjs; [reflexivity| |].
    + replace (Z.max 0 (N - i)) with 0 by lia. change ((0 + 3) / 4) with 0. lia.
    + intros p. destruct (decide _); [lia|reflexivity].
  - destruct (Z.ltb_spec i N) as [Hlt|Hge].
    + set (c := if 4 <=? N - i then 4 else N - i).
      assert (Hc : c = 4 /\ 4 <= N - i \/ c = N - i /\ N - i < 4).
      { subst c. destruct (Z.leb_spec 4 (N - i)); lia. }
      destruct (memcpy_word_spec buf i (uint32 (rnd k)) (Z.to_nat c) Hi
                  ltac:(lia)) as [Hl1 Hp1].
      rewrite Z2Nat.id in Hl1, Hp1 by lia.
      specialize (IH (i + 4) (k + 1) (memcpy_word buf i (uint32 (rnd k)) c)
                    ltac:(lia) ltac:(lia) ltac:(lia)).
      cbv zeta in IH. destruct IH as (IHl & IHk & IHp).
      cbv zeta. conjs.
      * now rewrite IHl.
      * rewrite IHk. Z.div_mod_to_equations. lia.
      * intros p. rewrite IHp, Hp1.
        repeat destruct (decide _); try reflexivity; try lia.
        -- f_equal; f_equal; [f_equal; f_equal|];
             Z.div_mod_to_equations; lia.
        -- f_equal; f_equal; [f_equal; f_equal|];
             Z.div_mod_to_equations; lia.
    + cbn [fst snd]. conjs; [reflexivity| |].
      * replace (Z.max 0 (N - i)) with 0 by lia. change ((0 + 3) / 4) with 0. lia.
      * intros p. destruct (decide _); [lia|reflexivity].
Qed.

Lemma lookup_iv_bytes (rnd : Z -> Z) (k : Z) (n p : nat) :
  (p < n)%nat ->
  iv_bytes rnd k n !! p =
    Some (byte_of (uint32 (rnd (k + Z.of_nat p / 4))) (Z.of_nat p mod 4)).
Proof.
  intros Hp. unfold iv_bytes.
  change (map ?f ?l) with (f <$> l).
  rewrite list_lookup_fmap, lookup_seq_lt by exact Hp. reflexivity.
Qed.

Lemma length_iv_bytes (rnd : Z -> Z) (k : Z) (n : nat) :
  length (iv_bytes rnd k n) = n.
Proof. unfold iv_bytes. now rewrite length_map, length_seq. Qed.

(** The first [n] bytes come from the random words, the rest is left. *)
Lemma generateRandomIV_eq (rnd : Z -> Z) (k : Z) (iv : list Z) (n : nat) :
  (n <= length iv)%nat ->
  generateRandomIV rnd k iv (Z.of_nat n) =
    ((iv_bytes rnd k n ++ drop n iv)%list, k + (Z.of_nat n + 3) / 4).
Proof.
  intros Hn. unfold generateRandomIV.
  destruct (generateRandomIV_loop_spec rnd (Z.of_nat n) (Z.to_nat (Z.of_nat n))
              0 k iv ltac:(lia) ltac:(lia) ltac:(lia)) as (Hl & Hk & Hp).
  destruct (generateRandomIV_loop _ _ _ _ _ _) as [buf k'].
  cbn [fst snd] in *. f_equal.
  - apply list_eq. intros p. rewrite Hp.
    destruct (decide _) as [Hin|Hout].
    + rewrite lookup_app_l by (rewrite length_iv_bytes; lia).
      rewrite lookup_iv_bytes by lia. now rewrite !Z.sub_0_r.
    + rewrite lookup_app_r by (rewrite length_iv_bytes; lia).
      rewrite length_iv_bytes, lookup_drop. f_equal. lia.
  - rewrite Hk. f_equal. f_equal. lia.
Qed.

Lemma byte_of_range (r j : Z) : 0 <= byte_of r j < 256.
Proof. unfold byte_of. apply Z.mod_pos_bound. reflexivity. Qed.


Lemma word_of_bytes (w : Z) :
  0 <= w < 2 ^ 32 ->
  word_of [byte_of w 0; byte_of w 1; byte_of w 2; byte_of w 3] = w.
Proof.
  intros Hw. unfold word_of, byte_of. cbn [fold_right].
  change (2 ^ (8 * 0)) with 1. change (2 ^ (8 * 1)) with 256.
  change (2 ^ (8 * 2)) with 65536. change (2 ^ (8 * 3)) with 16777216.
  change (2 ^ 32) with 4294967296 in Hw.
  Z.div_mod_to_equations. lia.
Qed.

Lemma iv_bytes_chunk (rnd : Z -> Z) (k : Z) (n j : nat) :
  (4 * j + 4 <= n)%nat ->
  take 4 (drop (4 * j) (iv_bytes rnd k n)) =
    let w := uint32 (rnd (k + Z.of_nat j)) in
    [byte_of w 0; byte_of w 1; byte_of w 2; byte_of w 3].
Proof.
  intros Hj. unfold iv_bytes.
  change (map ?f ?l) with (f <$> l).
  rewrite <- fmap_drop, <- fmap_take, drop_seq, take_seq.
  replace (4 `min` (n - 4 * j))%nat with 4%nat by lia.
  cbn [seq fmap list_fmap]. cbv zeta.
  replace (Z.of_nat (0 + 4 * j)) with (4 * Z.of_nat j + 0) by lia.
  replace (Z.of_nat (S (0 + 4 * j))) with (4 * Z.of_nat j + 1) by lia.
  replace (Z.of_nat (S (S (0 + 4 * j)))) with (4 * Z.of_nat j + 2) by lia.
  replace (Z.of_nat (S (S (S (0 + 4 * j))))) with (4 * Z.of_nat j + 3) by lia.
  repeat match goal with
  | |- context [(4 * ?a + ?b) / 4] =>
      replace ((4 * a + b) / 4) with a by (Z.div_mod_to_equations; lia)
  | |- context [(4 * ?a + ?b) mod 4] =>
      replace ((4 * a + b) mod 4) with b by (Z.div_mod_to_equations; lia)
  end.
  reflexivity.
Qed.

(** X7. [generateRandomIV(iv, n)] overwrites exactly the first [n] bytes
    of the array: byte [p] becomes byte [p mod 4] (in memory order) of the
    random word drawn in round [p / 4]; what follows in the array is left
    as it was, also when [n] is not a multiple of 4. It draws
    [ceil(n / 4)] random words, every byte written is in 0..255, and every
    whole group of four bytes holds all 32 bits of its word. *)
Theorem generateRandomIV_fills (rnd : Z -> Z) (k : Z) (iv : list Z) (n : nat) :
  (n <= length iv)%nat ->
  let r := generateRandomIV rnd k iv (Z.of_nat n) in
  take n r.1 = iv_bytes rnd k n /\
  drop n r.1 = drop n iv /\
  length r.1 = length iv /\
  r.2 = k + (Z.of_nat n + 3) / 4 /\
  Forall (fun b => 0 <= b < 256) (take n r.1) /\
  forall j : nat, (4 * j + 4 <= n)%nat ->
    word_of (take 4 (drop (4 * j) r.1)) = uint32 (rnd (k + Z.of_nat j)).
Proof.
  intros Hn r. subst r. rewrite generateRandomIV_eq by exact Hn.
  cbn [fst snd].
  assert (Ht : take n (iv_bytes rnd k n ++ drop n iv) = iv_bytes rnd k n)
    by (apply take_app_length'; now rewrite length_iv_bytes).
  rewrite Ht. conjs.
  - reflexivity.
  - apply drop_app_length'. now rewrite length_iv_bytes.
  - rewrite length_app, length_iv_bytes, length_drop. lia.
  - reflexivity.
  - unfold iv_bytes. apply Forall_map, Forall_forall. intros p _.
    apply byte_of_range.
  - intros j Hj.
    rewrite drop_app_le by (rewrite length_iv_bytes; lia).
    rewrite take_app_le
      by (rewrite length_drop, length_iv_bytes; lia).
    rewrite iv_bytes_chunk by exact Hj. cbv zeta.
    apply word_of_bytes. apply Z.mod_pos_bound. reflexivity.
Qed.

(** X7 on a 10-byte IV in a 12-byte array: three words are drawn, the
    third gives two bytes, and the last two bytes of the array stay. *)
Lemma generateRandomIV_fills_witness :
  let r := generateRandomIV (fun k => 67305985 + k * 269488144) 0
             (replicate 12 99) 10 in
  take 10 r.1 = [1; 2; 3; 4; 17; 18; 19; 20; 33; 34] /\
  drop 10 r.1 = [99; 99] /\
  r.2 = 3.
Proof.
  pose proof (generateRandomIV_fills (fun k => 67305985 + k * 269488144) 0
                (replicate 12 99) 10 ltac:(vm_compute; lia))
    as (H1 & H2 & _ & H4 & _).
  cbv zeta. conjs; [exact H1|exact H2|exact H4].
Defined.


(** ** The plaintext line *)

Lemma sprintf_plaintext (a : Z) (f : spec_float) :
  sprintf_enc ("%04X,%.3f" ++ nl) [ArgU a; ArgF f] = Some (plaintext_line a f).
Proof. reflexivity. Qed.

Lemma utox_loop_length (fuel : nat) :
  forall (n : Z) (acc : string) (k : nat),
    (0 <= n < 16 ^ Z.of_nat k)%Z -> (1 <= k)%nat ->
    (String.length (utox_loop fuel n acc) <= k + String.length acc)%nat.
Proof.
  induction fuel as [|fuel IH]; intros n acc k Hn Hk; simpl; [lia|].
  destruct (Z.eqb_spec (n / 16) 0) as [Hz|Hnz]; simpl; [lia|].
  destruct k as [|[|k]]; [lia| |].
  - exfalso. change (16 ^ Z.of_nat 1)%Z with 16%Z in Hn.
    Z.div_mod_to_equations. lia.
  - assert (Hq : (0 <= n / 16 < 16 ^ Z.of_nat (S k))%Z).
    { rewrite (Nat2Z.inj_succ (S k)), Z.pow_succ_r in Hn by lia.
      Z.div_mod_to_equations. lia. }
    specialize (IH (n / 16)%Z (String (hex_digit (n mod 16)) acc) (S k) Hq).
    simpl in IH. lia.
Qed.

Lemma length_zeros (n : nat) : String.length (zeros n) = n.
Proof. induction n as [|n IH]; simpl; [reflexivity|now rewrite IH]. Qed.

(** A 16-bit address prints as four characters. *)
Lemma length_hex4 (a : Z) :
  String.length (pad0 4 (utox (uint16 a))) = 4%nat.
Proof.
  assert (Ha : 0 <= uint16 a < 16 ^ Z.of_nat 4)
    by (apply Z.mod_pos_bound; reflexivity).
  pose proof (utox_loop_length (S (Z.to_nat (Z.log2 (uint16 a)))) (uint16 a)
                "" 4 Ha ltac:(lia)) as H.
  change (String.length "") with 0%nat in H.
  unfold pad0. rewrite length_append, length_zeros.
  fold (utox (uint16 a)) in H. lia.
Qed.

Lemma length_ftoa3 (f : spec_float) :
  is_float32 f = true -> (String.length (ftoa3 f) <= 44)%nat.
Proof.
  intros Hf. destruct f as [s|s| |s m e]; simpl ftoa3.
  - destruct s; simpl; lia.
  - destruct s; simpl; lia.
  - simpl; lia.
  - apply float32_bounds in Hf. destruct Hf as [Hm He].
    pose proof (round_scaled_range (Z.pos m * 1000) e ltac:(lia) He) as Hr.
    set (h := round_scaled (Z.pos m * 1000) e) in *.
    assert (Hu : (String.length (utoa (h / 1000)) <= 39)%nat).
    { apply utoa_length; [|lia].
      change (10 ^ Z.of_nat 39)%Z with
        1000000000000000000000000000000000000000%Z.
      change (2 ^ 24)%Z with 16777216%Z in Hm.
      change (2 ^ 104)%Z with 20282409603651670423947251286016%Z in Hr.
      Z.div_mod_to_equations. lia. }
    unfold fixed3. rewrite !length_append.
    destruct s; simpl String.length; lia.
Qed.

Lemma length_plaintext_line (a : Z) (f : spec_float) :
  is_float32 f = true ->
  (6 <= String.length (plaintext_line (uint16 a) f) <= 50)%nat.
Proof.
  intros Hf. pose proof (length_ftoa3 f Hf). pose proof (length_hex4 a).
  unfold plaintext_line. rewrite !length_append.
  change (String.length ",") with 1%nat. change (String.length nl) with 1%nat.
  lia.
Qed.

Lemma length_bytes_of (s : string) : length (bytes_of s) = String.length s.
Proof.
  unfold bytes_of. rewrite length_map.
  induction s as [|c s IH]; simpl; [reflexivity|now rewrite IH].
Qed.

(** ** Encrypting and opening *)

Lemma crypt_and_tag_reads (ctx : mbedtls_gcm_context) (mode : gcm_mode)
    (len : Z) (iv : list Z) (iv_len : Z) (add : list Z) (add_len : Z)
    (input rest : list Z) (tag_len : Z) :
  len = Z.of_nat (length input) ->
  mbedtls_gcm_crypt_and_tag ctx mode len iv iv_len add add_len
    (input ++ rest) tag_len =
  mbedtls_gcm_crypt_and_tag ctx mode len iv iv_len add add_len
    input tag_len.
Proof.
  intros ->. unfold mbedtls_gcm_crypt_and_tag.
  rewrite Nat2Z.id, take_app_length, firstn_all. reflexivity.
Qed.

Lemma encrypt_spec (key iv plaintext rest : list Z) :
  (length plaintext <= 128)%nat ->
  let ctx := mkCtx (take 16 key) (E (take 16 key) 0) in
  let c := gctr (cipher_key ctx) (inc32 (j0 (hash_key ctx) (take 12 iv)))
             plaintext in
  aesGcmEncrypt key iv (plaintext ++ rest) (Z.of_nat (length plaintext)) =
    (0, c, gcm_tag ctx (take 12 iv) [] c 16).
Proof.
  intros Hlen. unfold aesGcmEncrypt. rewrite setkey_128.
  cbn [negb Z.eqb].
  rewrite crypt_and_tag_reads by reflexivity.
  now rewrite crypt_and_tag_ok by exact Hlen.
Qed.

Lemma decrypt_spec (key iv tag ciphertext : list Z) :
  (length ciphertext <= 128)%nat ->
  let ctx := mkCtx (take 16 key) (E (take 16 key) 0) in
  let p := gctr (cipher_key ctx) (inc32 (j0 (hash_key ctx) (take 12 iv)))
             ciphertext in
  aesGcmDecrypt key iv tag ciphertext (Z.of_nat (length ciphertext)) =
    if (fold_left Z.lor
          (zip_with Z.lxor (take 16 tag)
             (gcm_tag ctx (take 12 iv) [] ciphertext 16)) 0 =? 0)
    then (0, p)
    else (MBEDTLS_ERR_GCM_AUTH_FAILED, map (fun _ => 0) p).
Proof.
  intros Hlen. unfold aesGcmDecrypt. rewrite setkey_128.
  cbn [negb Z.eqb]. unfold mbedtls_gcm_auth_decrypt.
  rewrite crypt_and_tag_ok by exact Hlen.
  cbv zeta. cbn [negb Z.eqb].
  change (Z.to_nat AES_TAG_LEN) with 16%nat.
  now destruct (_ =? 0).
Qed.

Lemma lor_fold_zero (l : list Z) (acc : Z) :
  fold_left Z.lor l acc = 0 -> acc = 0 /\ Forall (fun x => x = 0) l.
Proof.
  revert acc. induction l as [|x l IH]; intros acc H; simpl in H.
  - split; [exact H|constructor].
  - apply IH in H as [Ha Hl]. apply Z.lor_eq_0_iff in Ha as [Ha Hx].
    split; [exact Ha|]. now constructor.
Qed.

Lemma xor_zero_eq (t c : list Z) :
  length t = length c ->
  Forall (fun x => x = 0) (zip_with Z.lxor t c) -> t = c.
Proof.
  revert c. induction t as [|x t IH]; intros [|y c] Hlen H;
    simpl in *; try reflexivity; try discriminate.
  apply Forall_cons in H as [Hx H].
  apply Z.lxor_eq in Hx. subst y. f_equal. apply IH; [lia|exact H].
Qed.

(** The bytes at the fixed offsets of a packet. *)
Lemma packet_fields (v : Z) (iv tag c : list Z) :
  length iv = 12%nat -> length tag = 16%nat ->
  let packet := ([v] ++ iv ++ tag ++ c)%list in
  take 1 packet = [v] /\
  take 12 (drop 1 packet) = iv /\
  take 16 (drop 13 packet) = tag /\
  drop 29 packet = c /\
  length packet = (29 + length c)%nat.
Proof.
  intros Hiv Htag.
  do 13 (destruct iv as [|? iv]; try discriminate Hiv).
  do 17 (destruct tag as [|? tag]; try discriminate Htag).
  cbv zeta. conjs; reflexivity.
Qed.




(** X9. A tag that differs from the one [aesGcmEncrypt] produced is
    refused: for a plaintext of at most 128 bytes and any other 16-byte
    tag, [aesGcmDecrypt] returns [MBEDTLS_ERR_GCM_AUTH_FAILED] and hands
    out zero bytes only, never the plaintext. *)
Theorem wrong_tag_refused (key iv plaintext ciphertext tag tag' : list Z) :
  (length plaintext <= 128)%nat ->
  aesGcmEncrypt key iv plaintext (Z.of_nat (length plaintext)) =
    (0, ciphertext, tag) ->
  length tag' = 16%nat ->
  tag' <> tag ->
  aesGcmDecrypt key iv tag' ciphertext (Z.of_nat (length ciphertext)) =
    (MBEDTLS_ERR_GCM_AUTH_FAILED, replicate (length plaintext) 0).
Proof.
  intros Hlen Henc Ht' Hne.
  pose proof (encrypt_spec key iv plaintext [] Hlen) as Hspec.
  cbv zeta in Hspec. rewrite app_nil_r, Henc in Hspec.
  set (ctx := mkCtx (take 16 key) (E (take 16 key) 0)) in *.
  set (icb := inc32 (j0 (hash_key ctx) (take 12 iv))) in *.
  pose proof (f_equal (fun x => x.1.2) Hspec) as Hc.
  pose proof (f_equal snd Hspec) as Htag.
  cbn [fst snd] in Hc, Htag.
  assert (Hcl : length ciphertext = length plaintext)
    by (rewrite Hc; apply length_gctr).
  rewrite decrypt_spec by lia. cbv zeta. fold ctx icb.
  rewrite (take_ge tag') by lia.
  destruct (Z.eqb_spec
              (fold_left Z.lor
                 (zip_with Z.lxor tag' (gcm_tag ctx (take 12 iv) [] ciphertext 16))
                 0) 0) as [Hz|_].
  - exfalso. apply Hne.
    apply lor_fold_zero in Hz as [_ Hz].
    apply xor_zero_eq in Hz; [|now rewrite length_gcm_tag].
    rewrite Hz, Htag, Hc. reflexivity.
  - f_equal.
    rewrite <- Hcl, <- (length_gctr (cipher_key ctx) icb ciphertext).
    generalize (gctr (cipher_key ctx) icb ciphertext). intros l.
    induction l as [|x l IH]; simpl; [reflexivity|now rewrite IH].
Qed.

(** X9 on the key of the sketch: the all-zero tag is refused. *)
Lemma wrong_tag_refused_witness :
  let iv := hex 12 0xcafebabefacedbaddecaf888 in
  let plaintext := [55; 68; 48; 48; 44; 49; 46; 50; 51; 52; 10] in
  let r := aesGcmEncrypt AES_KEY iv plaintext (Z.of_nat (length plaintext)) in
  aesGcmDecrypt AES_KEY iv (replicate 16 0) r.1.2 (Z.of_nat (length r.1.2)) =
    (MBEDTLS_ERR_GCM_AUTH_FAILED, replicate (length plaintext) 0).
Proof.
  intros iv plaintext r.
  apply (wrong_tag_refused AES_KEY iv plaintext r.1.2 r.2 (replicate 16 0)).
  - vm_compute. lia.
  - vm_compute. reflexivity.
  - reflexivity.
  - vm_compute. discriminate.
Defined.

End EncFacts.
